(** * upload-json: a shallow embedding of [scripts/upload-json.js]

    The script parses its command line into an option object, resolves a
    JSON document from one of three sources, validates and re-serialises
    it, derives a destination object name and hands the bytes to a
    storage client (or only reports, under a dry run).

    Conventions of the embedding.
    - A JavaScript string is a [string] holding its UTF-8 encoding.  Every
      string operation the script performs cuts at ASCII characters
      ('-', '=', '/', ':', '.'), so it acts on the encoding exactly as it
      acts on the text, and [Buffer.byteLength(s, 'utf8')] is the length.
    - The option object is a [gmap string value]; a property read
      [options.k] is the lookup [options !! k], [None] being [undefined].
      The script reads the eleven option names only, and
      [Object.prototype] has no member of any of these names, so a read
      never leaves the object's own properties.  The table of
      [normalizeKey] is read under arbitrary keys, and there the members
      of [Object.prototype] are part of the model.
    - Built-ins of the language whose code is not the script's
      ([String.prototype.toLowerCase], [JSON.parse], [JSON.stringify])
      are the fields of a [Host]: what is proved for every [Host] holds
      whatever these built-ins compute.
    - The process environment of one run (files, standard input, clock,
      storage service) is a [World]; every effect the script performs is
      recorded, in order, in a trace. *)

From Stdlib Require Import Ascii.
From stdpp Require Import gmap strings list fin_maps pretty.

(** ** Characters and strings *)

Definition dash : ascii := "-"%char.
Definition nl : string := String "010"%char EmptyString.
Definition dquote : string := String "034"%char EmptyString.

(** [s.startsWith(p)]. *)
Definition startsWith (p s : string) : bool := String.prefix p s.

(** [s.slice(n)] for a non-negative [n]: drop the first [n] characters. *)
Fixpoint slice (n : nat) (s : string) : string :=
  match n, s with
  | 0, _ => s
  | S _, EmptyString => EmptyString
  | S n', String _ s' => slice n' s'
  end.

(** [s.slice(0, n)]: the first [n] characters. *)
Fixpoint slice_to (n : nat) (s : string) : string :=
  match n, s with
  | 0, _ => EmptyString
  | S _, EmptyString => EmptyString
  | S n', String c s' => String c (slice_to n' s')
  end.

(** [s.indexOf(c)] for a one-character needle; [None] stands for [-1]. *)
Fixpoint indexOf (c : ascii) (s : string) : option nat :=
  match s with
  | EmptyString => None
  | String d s' => if decide (d = c) then Some 0 else S <$> indexOf c s'
  end.

(** [s.replace(/^-+/, '')]: remove the leading run of dashes. *)
Fixpoint strip_leading_dashes (s : string) : string :=
  match s with
  | String c s' => if decide (c = dash) then strip_leading_dashes s' else s
  | EmptyString => EmptyString
  end.

(** [s.replace(/[:.]/g, '-')]. *)
Fixpoint replace_colon_dot (s : string) : string :=
  match s with
  | EmptyString => EmptyString
  | String c s' =>
      String (if decide (c = ":"%char \/ c = "."%char) then dash else c)
             (replace_colon_dot s')
  end.

(** [s] occurs in [t] ([t.includes(s)]). *)
Definition contains (s t : string) : Prop := exists pre post, t = pre +:+ s +:+ post.

(** A case mapping that is [toLowerCase] on ASCII text: 'A'..'Z' go to
    'a'..'z', every other byte stays.  It instantiates the host's
    [toLowerCase] wherever the script is run on a concrete command line. *)
Definition ascii_lower (c : ascii) : ascii :=
  let n := nat_of_ascii c in
  if (65 <=? n) && (n <=? 90) then ascii_of_nat (n + 32) else c.

Fixpoint ascii_toLowerCase (s : string) : string :=
  match s with
  | EmptyString => EmptyString
  | String c s' => String (ascii_lower c) (ascii_toLowerCase s')
  end.

(** ** Option values *)

(** The values [parseArgs] stores: a string or the boolean [true]. *)
Inductive value :=
| VStr (s : string)
| VTrue.

Global Instance value_eq_dec : EqDecision value.
Proof. solve_decision. Defined.

(** JavaScript truthiness of a property read: [undefined] and the empty
    string are falsy, a non-empty string and [true] are truthy. *)
Definition truthy (v : option value) : bool :=
  match v with
  | None => false
  | Some (VStr s) => negb (bool_decide (s = ""))
  | Some VTrue => true
  end.

(** [String(v)], also the conversion a template literal applies. *)
Definition js_String (v : option value) : string :=
  match v with
  | None => "undefined"
  | Some (VStr s) => s
  | Some VTrue => "true"
  end.

(** ** Errors, completions and promises *)

Record Error := mkError { message : string }.

(** The completion of a synchronous call. *)
Inductive completion (A : Type) :=
| Return (a : A)
| Throw (e : Error).
Arguments Return {A} a.
Arguments Throw {A} e.

(** The final state of a promise; [Pending] is one that never settles. *)
Inductive promise (A : Type) :=
| Resolved (a : A)
| Rejected (e : Error)
| Pending.
Arguments Resolved {A} a.
Arguments Rejected {A} e.
Arguments Pending {A}.

(** ** The language built-ins the script calls *)

Record Host := mkHost {
  (** [String.prototype.toLowerCase] *)
  toLowerCase : string -> string;
  (** the values [JSON.parse] produces *)
  JSON : Type;
  (** [JSON.parse(text)]: a value, or the [SyntaxError] it throws *)
  JSON_parse : string -> completion JSON;
  (** [JSON.stringify(v, null, spaces)] *)
  JSON_stringify : JSON -> nat -> string
}.

(** A host to run the script on concrete inputs: ASCII case mapping, and
    a JSON that knows the three literal names, written without blanks,
    and rejects every other text. *)
Inductive literal := LNull | LTrue | LFalse.

Definition literal_parse (text : string) : completion literal :=
  if decide (text = "null") then Return LNull
  else if decide (text = "true") then Return LTrue
  else if decide (text = "false") then Return LFalse
  else Throw (mkError "Unexpected token").

Definition literal_stringify (v : literal) (spaces : nat) : string :=
  match v with
  | LNull => "null"
  | LTrue => "true"
  | LFalse => "false"
  end.

Definition ascii_host : Host :=
  {| toLowerCase := ascii_toLowerCase;
     JSON := literal;
     JSON_parse := literal_parse;
     JSON_stringify := literal_stringify |}.

(** A second host, for JSON texts that are numbers.  Its JSON is the
    fragment of the language's made of the three literal names and the
    unsigned integer numbers [digits] and [digits e digits], written
    without blanks.  A number is read as the language reads it, into a
    double: an integer below 2^53 is that integer, exactly; an integer
    of 2^1024 or more is beyond every finite double and is read as
    [Infinity].  [JSON.stringify] prints an integer below 2^53 in plain
    decimal digits and, as JSON has no text for it, prints [Infinity]
    as [null]; the indentation does not show in a value that is neither
    an object nor an array.  The host rejects every text outside the
    fragment, and the integers in between, where a double rounds. *)
Inductive number_or_literal :=
  | JNull
  | JTrue
  | JFalse
  | JNumber (n : N)
  | JInfinity.

Definition digit_value (c : ascii) : option N :=
  let n := N_of_ascii c in
  if ((48 <=? n) && (n <=? 57))%N then Some (n - 48)%N else None.

Fixpoint digits_value (s : string) (acc : N) : option N :=
  match s with
  | EmptyString => Some acc
  | String c s' =>
      match digit_value c with
      | Some d => digits_value s' (10 * acc + d)%N
      | None => None
      end
  end.

(** The integer part of a JSON number: [0], or digits that do not start
    with [0]. *)
Definition integer_literal (s : string) : option N :=
  match s with
  | EmptyString => None
  | String c s' =>
      if decide (c = "0"%char)
      then if decide (s' = "") then Some 0%N else None
      else digits_value s 0
  end.

(** The digits of an exponent: one at least, zeros may lead. *)
Definition exponent_literal (s : string) : option N :=
  match s with
  | EmptyString => None
  | _ => digits_value s 0
  end.

(** The exact value of a number text of the fragment. *)
Definition number_literal (s : string) : option N :=
  match indexOf "e" s with
  | Some i =>
      match integer_literal (slice_to i s), exponent_literal (slice (i + 1) s) with
      | Some m, Some e => Some (m * 10 ^ e)%N
      | _, _ => None
      end
  | None => integer_literal s
  end.

Definition number_parse (text : string) : completion number_or_literal :=
  if decide (text = "null") then Return JNull
  else if decide (text = "true") then Return JTrue
  else if decide (text = "false") then Return JFalse
  else
    match number_literal text with
    | Some exact =>
        if (exact <? 2 ^ 53)%N then Return (JNumber exact)
        else if (2 ^ 1024 <=? exact)%N then Return JInfinity
        else Throw (mkError "Unexpected token")
    | None => Throw (mkError "Unexpected token")
    end.

Definition number_stringify (v : number_or_literal) (spaces : nat) : string :=
  match v with
  | JNull => "null"
  | JTrue => "true"
  | JFalse => "false"
  | JNumber n => pretty n
  | JInfinity => "null"
  end.

Definition number_host : Host :=
  {| toLowerCase := ascii_toLowerCase;
     JSON := number_or_literal;
     JSON_parse := number_parse;
     JSON_stringify := number_stringify |}.

(** ** The process environment and the effects of a run *)

(** What the stream [process.stdin] delivers to the three listeners. *)
Inductive stdin_event :=
| on_data (chunk : string)
| on_end
| on_error (e : Error).

(** The options object handed to [file.save]. *)
Record saveOptions := mkSaveOptions {
  resumable : bool;
  contentType : string;
  metadata_cacheControl : option (option value)   (* [None]: no [metadata] property *)
}.

Record World := mkWorld {
  (** [fsPromises.readFile(path, 'utf8')] *)
  fs_readFile : option value -> promise string;
  (** [process.stdin.isTTY] *)
  stdin_isTTY : bool;
  (** the events of [process.stdin], in order *)
  stdin_events : list stdin_event;
  (** [new Date().toISOString()] *)
  now_toISOString : string;
  (** [storage.bucket(b).file(d).save(data, options)] *)
  storage_save : option value -> option value -> string -> saveOptions -> promise unit
}.

Inductive effect :=
| console_log (text : string)
| console_error (text : string)
| readFile_call (path : option value)
| stdin_listen
| new_Storage (projectId keyFilename : option value)
| save_call (bucket destination : option value) (data : string) (options : saveOptions).

(** An asynchronous computation: the effects performed, in order, and the
    promise it leaves. *)
Definition Async (A : Type) : Type := list effect * promise A.

Definition resolve {A} (a : A) : Async A := ([], Resolved a).
Definition reject {A} (e : Error) : Async A := ([], Rejected e).
Definition perform (e : effect) : Async unit := ([e], Resolved tt).

(** [await m] followed by [k]: a rejection or a promise that never
    settles ends the computation there. *)
Definition await {A B} (m : Async A) (k : A -> Async B) : Async B :=
  match m with
  | (t, Resolved a) => let '(t', r) := k a in (t ++ t', r)
  | (t, Rejected e) => (t, Rejected e)
  | (t, Pending) => (t, Pending)
  end.

(** A synchronous call inside an [async] function: a throw rejects. *)
Definition call {A} (c : completion A) : Async A :=
  match c with
  | Return a => resolve a
  | Throw e => reject e
  end.

Notation "x <- m ;; k" := (await m (fun x => k))
  (at level 100, m at next level, right associativity).
Notation "m ;;; k" := (await m (fun _ => k))
  (at level 100, right associativity).

(** ** printHelp *)

Definition helpText : string :=
  nl +:+ "Upload a JSON document to a Google Cloud Storage bucket." +:+ nl +:+ nl +:+
  "Usage: npm run upload-json -- --bucket <bucket-name> [options]" +:+ nl +:+ nl +:+
  "Options:" +:+ nl +:+
  "  --bucket, -b           GCS bucket name (required)" +:+ nl +:+
  "  --destination, -d      Destination object path in the bucket. Defaults to the input file name" +:+ nl +:+
  "                         or document-<timestamp>.json when reading from stdin." +:+ nl +:+
  "  --input, -i            Path to a JSON file to upload." +:+ nl +:+
  "  --stdin                Read JSON from standard input (also implied when data is piped)." +:+ nl +:+
  "  --data                 Inline JSON string to upload." +:+ nl +:+
  "  --project, -p          GCP project id (optional)." +:+ nl +:+
  "  --credentials          Path to a service account key file (optional)." +:+ nl +:+
  "  --cache-control        Cache-Control metadata to apply to the uploaded object." +:+ nl +:+
  "  --compact              Upload compact JSON instead of pretty-printing with two spaces." +:+ nl +:+
  "  --dry-run              Validate input and report the upload target without performing it." +:+ nl +:+
  "  --help, -h             Show this message." +:+ nl.

Definition printHelp : Async unit := perform (console_log helpText).

(** ** normalizeKey *)

(** The own properties of the object literal [map]. *)
Definition flag_table : list (string * string) :=
  [ ("b", "bucket"); ("bucket", "bucket");
    ("d", "destination"); ("dest", "destination"); ("destination", "destination");
    ("i", "input"); ("input", "input");
    ("p", "project"); ("project", "project");
    ("credentials", "credentials"); ("key-file", "credentials"); ("keyfile", "credentials");
    ("data", "data"); ("stdin", "stdin"); ("compact", "compact");
    ("cache-control", "cacheControl"); ("cachecontrol", "cacheControl");
    ("dry-run", "dryRun"); ("dryrun", "dryRun");
    ("h", "help"); ("help", "help") ].

(** The eleven canonical option names. *)
Definition canonical_names : list string :=
  [ "bucket"; "destination"; "input"; "project"; "credentials"; "data";
    "stdin"; "compact"; "cacheControl"; "dryRun"; "help" ].

(** [map] is an ordinary object, so [map[key]] is a property read: when
    the literal has no own property [key] the read continues in
    [Object.prototype].  These are that object's members; all but
    [__proto__] are built-in functions, [__proto__] is an accessor that
    yields [Object.prototype] itself. *)
Definition prototype_functions : list string :=
  [ "constructor"; "__defineGetter__"; "__defineSetter__"; "hasOwnProperty";
    "__lookupGetter__"; "__lookupSetter__"; "isPrototypeOf";
    "propertyIsEnumerable"; "toString"; "valueOf"; "toLocaleString" ].

(** The name under which a built-in function is known: the member
    [constructor] of [Object.prototype] is the function [Object]. *)
Definition function_name (member : string) : string :=
  if decide (member = "constructor") then "Object" else member.

(** The result of the property read [map[key]]. *)
Inductive property :=
| Own (name : string)
| BuiltinFunction (name : string)
| ObjectPrototype
| Undefined.

(** Own-property lookup in a literal: the first entry with that key. *)
Fixpoint assoc (key : string) (table : list (string * string)) : option string :=
  match table with
  | [] => None
  | (k, v) :: rest => if decide (k = key) then Some v else assoc key rest
  end.

Definition lookup_property (key : string) : property :=
  match assoc key flag_table with
  | Some name => Own name
  | None =>
      if decide (key ∈ prototype_functions) then BuiltinFunction (function_name key)
      else if decide (key = "__proto__") then ObjectPrototype
      else Undefined
  end.

(** [!key] is false exactly for these: a non-empty string, a function
    and an object are truthy. *)
Definition property_truthy (p : property) : bool :=
  match p with
  | Own name => negb (bool_decide (name = ""))
  | BuiltinFunction _ | ObjectPrototype => true
  | Undefined => false
  end.

(** The property key of [args[key] = value]: a string is used as it is,
    any other value is converted to a string first. *)
Definition toPropertyKey (p : property) : string :=
  match p with
  | Own name => name
  | BuiltinFunction name => "function " +:+ name +:+ "() { [native code] }"
  | ObjectPrototype => "[object Object]"
  | Undefined => "undefined"
  end.

Definition normalizeKey (h : Host) (rawKey : string) : property :=
  let key := toLowerCase h rawKey in
  lookup_property key.

(** ** parseArgs *)

(** The key and the inline value of one flag token (a token that starts
    with a dash): the token is brought to its double-dash form, cut at
    the first '=', and the key is normalised. *)
Definition split_token (h : Host) (token : string) : property * option string :=
  let token := if startsWith "--" token then token else "--" +:+ slice 1 token in
  let withoutDashes := slice 2 token in
  let '(key, value) :=
    match indexOf "="%char withoutDashes with
    | Some eqIndex => (slice_to eqIndex withoutDashes, Some (slice (eqIndex + 1) withoutDashes))
    | None => (withoutDashes, None)
    end in
  (normalizeKey h (strip_leading_dashes key), value).

(** The loop of [parseArgs] over the tokens from index [i] on, [argv]
    being those tokens and [args] the object built so far.  Consuming the
    next token as a value ([i += 1]) continues after it. *)
Fixpoint parseArgs_from (h : Host) (argv : list string) (args : gmap string value)
    : gmap string value :=
  match argv with
  | [] => args
  | token :: rest =>
      if negb (startsWith "-" token) then parseArgs_from h rest args
      else
        let '(key, value) := split_token h token in
        if negb (property_truthy key) then parseArgs_from h rest args
        else
          match value with
          | Some v => parseArgs_from h rest (<[toPropertyKey key := VStr v]> args)
          | None =>
              match rest with
              | next :: rest' =>
                  if negb (startsWith "-" next)
                  then parseArgs_from h rest' (<[toPropertyKey key := VStr next]> args)
                  else parseArgs_from h rest (<[toPropertyKey key := VTrue]> args)
              | [] => parseArgs_from h rest (<[toPropertyKey key := VTrue]> args)
              end
          end
  end.

Definition parseArgs (h : Host) (argv : list string) : gmap string value :=
  parseArgs_from h argv ∅.

(** ** readFromStdin *)

(** The promise of [readFromStdin]: chunks are appended to [data] until
    the stream ends (resolve) or fails (reject); what the stream delivers
    after that no longer matters, and a stream that does neither leaves
    the promise pending. *)
Fixpoint readFromStdin_loop (events : list stdin_event) (data : string) : promise string :=
  match events with
  | [] => Pending
  | on_data chunk :: later => readFromStdin_loop later (data +:+ chunk)
  | on_end :: _ => Resolved data
  | on_error e :: _ => Rejected e
  end.

Definition readFromStdin (w : World) : Async string :=
  ([stdin_listen], readFromStdin_loop (stdin_events w) "").

(** ** getInput *)

Definition getInput (w : World) (options : gmap string value) : Async string :=
  if truthy (options !! "data") then
    resolve (js_String (options !! "data"))
  else if truthy (options !! "input") then
    ([readFile_call (options !! "input")], fs_readFile w (options !! "input"))
  else if truthy (options !! "stdin") || negb (stdin_isTTY w) then
    stdinData <- readFromStdin w ;;
    if bool_decide (stdinData = "") then
      reject (mkError "No data received from stdin.")
    else resolve stdinData
  else
    reject (mkError "No JSON input provided. Use --input, --data, or pipe data via stdin.").

(** ** path.basename *)

Definition slash : ascii := "/"%char.

(** The loop of Node's POSIX [basename(path)], which walks the path from
    its last character backwards: slashes are skipped while
    [matchedSlash] holds (the trailing run), the first other character
    marks the end of the component, and the next slash stops the walk.
    [rev_path] is what is left to walk, last character first; [component]
    collects the characters between [start] and [end]. *)
Fixpoint basename_walk (rev_path : list ascii) (matchedSlash : bool)
    (component : list ascii) : list ascii :=
  match rev_path with
  | [] => component
  | c :: before =>
      if decide (c = slash) then
        if matchedSlash then basename_walk before true component else component
      else basename_walk before false (c :: component)
  end.

Definition basename (path : string) : string :=
  String.string_of_list_ascii
    (basename_walk (rev (String.list_ascii_of_string path)) true []).

(** [path.basename(p)] validates its argument: anything but a string is
    a [TypeError]. *)
Definition path_basename (p : option value) : completion string :=
  match p with
  | Some (VStr path) => Return (basename path)
  | Some VTrue =>
      Throw (mkError ("The " +:+ dquote +:+ "path" +:+ dquote +:+
                      " argument must be of type string. Received type boolean (true)"))
  | None =>
      Throw (mkError ("The " +:+ dquote +:+ "path" +:+ dquote +:+
                      " argument must be of type string. Received undefined"))
  end.

(** ** inferDestination *)

Definition inferDestination (w : World) (options : gmap string value)
    : completion (option value) :=
  if truthy (options !! "destination") then
    Return (options !! "destination")
  else if truthy (options !! "input") then
    match path_basename (options !! "input") with
    | Return name => Return (Some (VStr name))
    | Throw e => Throw e
    end
  else
    let timestamp := replace_colon_dot (now_toISOString w) in
    Return (Some (VStr ("document-" +:+ timestamp +:+ ".json"))).

(** ** preparePayload *)

(** [Buffer.byteLength(s, 'utf8')]. *)
Definition byteLength (s : string) : nat := String.length s.

Record payload := mkPayload { jsonString : string; bytes : nat }.

Definition preparePayload (h : Host) (rawJson : string) (options : gmap string value)
    : completion payload :=
  match JSON_parse h rawJson with
  | Throw error => Throw (mkError ("Input is not valid JSON: " +:+ message error))
  | Return parsed =>
      let spaces := if truthy (options !! "compact") then 0 else 2 in
      let jsonString := JSON_stringify h parsed spaces in
      Return {| jsonString := jsonString; bytes := byteLength jsonString |}
  end.

(** ** main *)

Definition dry_run_line (p : payload) (bucket destination : option value) : string :=
  "[dry-run] Valid JSON (" +:+ pretty (bytes p) +:+ " bytes). Would upload to gs://" +:+
  js_String bucket +:+ "/" +:+ js_String destination.

Definition uploaded_line (p : payload) (bucket destination : option value) : string :=
  "Uploaded " +:+ pretty (bytes p) +:+ " bytes to gs://" +:+
  js_String bucket +:+ "/" +:+ js_String destination.

Definition main (h : Host) (w : World) (argv : list string) : Async unit :=
  let args := parseArgs h argv in
  if truthy (args !! "help") then
    printHelp
  else if negb (truthy (args !! "bucket")) then
    printHelp ;;;
    reject (mkError "Missing required --bucket option.")
  else
    rawJson <- getInput w args ;;
    payload <- call (preparePayload h rawJson args) ;;
    destination <- call (inferDestination w args) ;;
    perform (new_Storage (args !! "project") (args !! "credentials")) ;;;
    if truthy (args !! "dryRun") then
      perform (console_log (dry_run_line payload (args !! "bucket") destination))
    else
      let saveOptions :=
        {| resumable := false;
           contentType := "application/json";
           metadata_cacheControl :=
             if truthy (args !! "cacheControl") then Some (args !! "cacheControl")
             else None |} in
      ([save_call (args !! "bucket") destination (jsonString payload) saveOptions],
       storage_save w (args !! "bucket") destination (jsonString payload) saveOptions) ;;;
      perform (console_log (uploaded_line payload (args !! "bucket") destination)).

(** How the process ends. *)
Inductive exit :=
| Exit (code : nat)
| NoExit.

(** The whole script: [main().catch(...)] prints the message of a
    rejection on the error stream and sets the exit code to 1. *)
Definition run (h : Host) (w : World) (argv : list string) : list effect * exit :=
  match main h w argv with
  | (t, Resolved _) => (t, Exit 0)
  | (t, Rejected error) => (t ++ [console_error (message error)], Exit 1)
  | (t, Pending) => (t, NoExit)
  end.

(** ** Notions the statements below use *)

(** The text a stream has delivered once its chunks are put together. *)
Definition stream_text (chunks : list string) : string := foldr String.app "" chunks.

(** A path component: no slash in it. *)
Definition slash_free (s : string) : Prop := slash ∉ String.list_ascii_of_string s.

(** The document [{"a":1}]. *)
Definition json_a1 : string := "{" +:+ dquote +:+ "a" +:+ dquote +:+ ":1}".

(** An environment to run examples in: one readable file holding
    [true], an interactive terminal whose stream delivers [null] in two
    chunks when it is read, a fixed clock and a storage service that
    accepts every upload. *)
Definition sample_world : World :=
  {| fs_readFile := fun p =>
       match p with
       | Some (VStr "dir/foo.json") => Resolved "true"
       | _ => Rejected (mkError "ENOENT: no such file or directory")
       end;
     stdin_isTTY := true;
     stdin_events := [on_data "nu"; on_data "ll"; on_end];
     now_toISOString := "2024-01-02T03:04:05.678Z";
     storage_save := fun _ _ _ _ => Resolved tt |}.

(** The same environment with standard input piped from an empty file. *)
Definition piped_empty_world : World :=
  {| fs_readFile := fs_readFile sample_world;
     stdin_isTTY := false;
     stdin_events := [on_end];
     now_toISOString := now_toISOString sample_world;
     storage_save := storage_save sample_world |}.

(** The effects that are uploads. *)
Definition is_save (e : effect) : bool :=
  match e with
  | save_call _ _ _ _ => true
  | _ => false
  end.

(** What one token does in [parseArgs].  A token assigns a key when it
    starts with a dash and its key reads as truthy in the table;
    [token_key] is that key. *)
Definition token_key (h : Host) (token : string) : option string :=
  if startsWith "-" token then
    if property_truthy (split_token h token).1
    then Some (toPropertyKey (split_token h token).1)
    else None
  else None.

(** The value a flag gets, from its inline value or from the tokens
    that follow it. *)
Definition assigned_value (inline : option string) (rest : list string) : value :=
  match inline, rest with
  | Some v, _ => VStr v
  | None, next :: _ => if startsWith "-" next then VTrue else VStr next
  | None, [] => VTrue
  end.

(** Whether the flag takes the next token as its value. *)
Definition consumes_next (inline : option string) (rest : list string) : bool :=
  match inline, rest with
  | None, next :: _ => negb (startsWith "-" next)
  | _, _ => false
  end.

(** The keys under which a member of [Object.prototype] read from the
    table ends up in the option object. *)
Definition inherited_keys : list string :=
  "[object Object]"
  :: ((fun member => "function " +:+ function_name member +:+ "() { [native code] }")
        <$> prototype_functions).

(** ** Further notions and environments *)

(** A run of [n] dashes. *)
Fixpoint dashes (n : nat) : string :=
  match n with
  | 0 => ""
  | S n' => String dash (dashes n')
  end.

(** The character [c] does not occur in [s]. *)
Definition char_free (c : ascii) (s : string) : Prop :=
  c ∉ String.list_ascii_of_string s.

(** A path made of slashes only. *)
Definition only_slashes (s : string) : Prop :=
  Forall (fun c => c = slash) (String.list_ascii_of_string s).

Definition is_console_error (e : effect) : bool :=
  match e with
  | console_error _ => true
  | _ => false
  end.

(** [sample_world] with the file [dir/foo.json] empty. *)
Definition empty_file_world : World :=
  {| fs_readFile := fun p =>
       match p with
       | Some (VStr "dir/foo.json") => Resolved ""
       | _ => Rejected (mkError "ENOENT: no such file or directory")
       end;
     stdin_isTTY := true;
     stdin_events := stdin_events sample_world;
     now_toISOString := now_toISOString sample_world;
     storage_save := storage_save sample_world |}.

(** Standard input piped from a process that fails after one chunk; the
    stream would still deliver more afterwards. *)
Definition broken_pipe_world : World :=
  {| fs_readFile := fs_readFile sample_world;
     stdin_isTTY := false;
     stdin_events := [on_data "nu"; on_error (mkError "read EIO"); on_data "ll"; on_end];
     now_toISOString := now_toISOString sample_world;
     storage_save := storage_save sample_world |}.

(** Standard input piped from a process that never closes it. *)
Definition stalled_pipe_world : World :=
  {| fs_readFile := fs_readFile sample_world;
     stdin_isTTY := false;
     stdin_events := [on_data "null"];
     now_toISOString := now_toISOString sample_world;
     storage_save := storage_save sample_world |}.

(** [sample_world] with the same text on standard input, cut
    differently and followed by more after the end. *)
Definition rechunked_world : World :=
  {| fs_readFile := fs_readFile sample_world;
     stdin_isTTY := true;
     stdin_events := [on_data "n"; on_data ""; on_data "ull"; on_end; on_data "more"];
     now_toISOString := now_toISOString sample_world;
     storage_save := storage_save sample_world |}.

(** [sample_world] with a storage service that refuses every upload. *)
Definition failing_storage_world : World :=
  {| fs_readFile := fs_readFile sample_world;
     stdin_isTTY := true;
     stdin_events := stdin_events sample_world;
     now_toISOString := now_toISOString sample_world;
     storage_save := fun _ _ _ _ => Rejected (mkError "403 Forbidden") |}.

(** Proofs about the loop unfold it one turn at a time, by
    [parseArgs_from_cons]. *)
Global Arguments startsWith : simpl never.
Global Arguments split_token : simpl never.
Global Arguments parseArgs_from : simpl never.

(** * Properties *)

(** ** Strings *)

Lemma app_cons c s t : String c s +:+ t = String c (s +:+ t).
Proof. reflexivity. Qed.

Lemma app_empty_r s : s +:+ "" = s.
Proof. induction s as [|c s IH]; [done|]. by rewrite app_cons, IH. Qed.

Lemma app_assoc_string s t u : (s +:+ t) +:+ u = s +:+ t +:+ u.
Proof. induction s as [|c s IH]; [done|]. by rewrite !app_cons, IH. Qed.

(** Settles [contains s t] for literal texts, given what stands before
    and after [s] in [t]. *)
Ltac occurs_between pre post := exists pre, post; reflexivity.

Lemma list_of_app s t :
  String.list_ascii_of_string (s +:+ t)
  = String.list_ascii_of_string s ++ String.list_ascii_of_string t.
Proof. induction s as [|c s IH]; [done|]. rewrite app_cons. simpl. by rewrite IH. Qed.

(** ** readFromStdin *)

Lemma readFromStdin_loop_data chunks rest data :
  readFromStdin_loop ((on_data <$> chunks) ++ rest) data
  = readFromStdin_loop rest (data +:+ stream_text chunks).
Proof.
  revert data. induction chunks as [|c chunks IH]; intros data; simpl.
  - by rewrite app_empty_r.
  - rewrite IH. by rewrite app_assoc_string.
Qed.

(** The three ways a stream can go: it ends, it fails, or it does
    neither; [readFromStdin] resolves with all the text delivered before
    the end, rejects with the stream's error, or stays pending. *)
Lemma readFromStdin_spec w chunks :
  (forall later, stdin_events w = (on_data <$> chunks) ++ on_end :: later ->
     readFromStdin w = ([stdin_listen], Resolved (stream_text chunks)))
  /\ (forall e later, stdin_events w = (on_data <$> chunks) ++ on_error e :: later ->
     readFromStdin w = ([stdin_listen], Rejected e))
  /\ (stdin_events w = on_data <$> chunks ->
     readFromStdin w = ([stdin_listen], Pending)).
Proof.
  unfold readFromStdin. repeat split.
  - intros later ->. by rewrite readFromStdin_loop_data.
  - intros e later ->. by rewrite readFromStdin_loop_data.
  - intros ->. rewrite <- (app_nil_r (on_data <$> chunks)).
    by rewrite readFromStdin_loop_data.
Qed.

(** ** getInput *)

(** C1.  Input resolution tries its sources in a fixed order.  An option
    is present when it reads as truthy (a non-empty string or [true]).
    With [data] present the result is that value as text and nothing is
    read; otherwise, with [input] present, the result is the promise of
    reading that file, whatever it settles to, so an I/O error is the
    error of the resolution; otherwise, with the [stdin] flag set or
    standard input not a terminal, standard input is read up to its end
    and the text it delivered is the result.  In particular the command
    line [--data {"a":1}] resolves to exactly [{"a":1}], in every
    environment. *)
Theorem getInput_precedence (w : World) (options : gmap string value) :
  (truthy (options !! "data") = true ->
     getInput w options = ([], Resolved (js_String (options !! "data"))))
  /\ (truthy (options !! "data") = false ->
      truthy (options !! "input") = true ->
      getInput w options
      = ([readFile_call (options !! "input")], fs_readFile w (options !! "input")))
  /\ (truthy (options !! "data") = false ->
      truthy (options !! "input") = false ->
      truthy (options !! "stdin") = true \/ stdin_isTTY w = false ->
      forall chunks later,
        stdin_events w = (on_data <$> chunks) ++ on_end :: later ->
        stream_text chunks <> "" ->
        getInput w options = ([stdin_listen], Resolved (stream_text chunks)))
  /\ (forall w', getInput w' (parseArgs ascii_host ["--data"; json_a1])
                 = ([], Resolved json_a1)).
Proof.
  split; [|split; [|split]]; unfold getInput.
  - by intros ->.
  - by intros -> ->.
  - intros -> -> Hstdin chunks later Hev Htext.
    assert (truthy (options !! "stdin") || negb (stdin_isTTY w) = true) as ->.
    { destruct Hstdin as [-> | ->]; [done | by rewrite orb_true_r]. }
    destruct (readFromStdin_spec w chunks) as (Hend & _ & _).
    rewrite (Hend later Hev). simpl.
    by rewrite bool_decide_eq_false_2.
  - intros w'. by vm_compute.
Qed.

Lemma getInput_precedence_witness :
  getInput sample_world (parseArgs ascii_host ["--data"; "null"]) = ([], Resolved "null")
  /\ getInput sample_world (parseArgs ascii_host ["--input"; "dir/foo.json"])
     = ([readFile_call (Some (VStr "dir/foo.json"))], Resolved "true")
  /\ getInput sample_world (parseArgs ascii_host ["--stdin"])
     = ([stdin_listen], Resolved "null").
Proof.
  split; [|split].
  - apply (getInput_precedence sample_world (parseArgs ascii_host ["--data"; "null"])).
    by vm_compute.
  - apply (getInput_precedence sample_world (parseArgs ascii_host ["--input"; "dir/foo.json"]));
      by vm_compute.
  - refine (proj1 (proj2 (proj2
      (getInput_precedence sample_world (parseArgs ascii_host ["--stdin"]))))
      _ _ (or_introl _) ["nu"; "ll"] [] _ _); by vm_compute.
Defined.

(** C7.  With neither [data] nor [input] present: when standard input is
    read (the [stdin] flag is set, or standard input is not a terminal)
    and has delivered no text by its end, the resolution fails with the
    empty-input error; when the [stdin] flag is unset and standard input
    is a terminal, it fails, reading nothing, with the no-input error,
    whose message names the three sources [--input], [--data] and
    [stdin]. *)
Theorem getInput_errors (w : World) (options : gmap string value) :
  truthy (options !! "data") = false ->
  truthy (options !! "input") = false ->
  (truthy (options !! "stdin") = true \/ stdin_isTTY w = false ->
     forall chunks later,
       stdin_events w = (on_data <$> chunks) ++ on_end :: later ->
       stream_text chunks = "" ->
       getInput w options
       = ([stdin_listen], Rejected (mkError "No data received from stdin.")))
  /\ (truthy (options !! "stdin") = false -> stdin_isTTY w = true ->
      exists e,
        getInput w options = ([], Rejected e)
        /\ contains "No JSON input provided" (message e)
        /\ contains "--input" (message e)
        /\ contains "--data" (message e)
        /\ contains "stdin" (message e)).
Proof.
  intros Hdata Hinput. unfold getInput. rewrite Hdata, Hinput. split.
  - intros Hstdin chunks later Hev Htext.
    assert (truthy (options !! "stdin") || negb (stdin_isTTY w) = true) as ->.
    { destruct Hstdin as [-> | ->]; [done | by rewrite orb_true_r]. }
    destruct (readFromStdin_spec w chunks) as (Hend & _ & _).
    rewrite (Hend later Hev), Htext. done.
  - intros -> ->. simpl.
    exists (mkError "No JSON input provided. Use --input, --data, or pipe data via stdin.").
    split; [done|]. simpl. split; [|split; [|split]].
    + occurs_between "" ". Use --input, --data, or pipe data via stdin.".
    + occurs_between "No JSON input provided. Use " ", --data, or pipe data via stdin.".
    + occurs_between "No JSON input provided. Use --input, " ", or pipe data via stdin.".
    + occurs_between "No JSON input provided. Use --input, --data, or pipe data via " ".".
Qed.

Lemma getInput_errors_witness :
  getInput piped_empty_world ∅
  = ([stdin_listen], Rejected (mkError "No data received from stdin."))
  /\ exists e,
       getInput sample_world (parseArgs ascii_host ["--bucket"; "b"]) = ([], Rejected e)
       /\ contains "No JSON input provided" (message e)
       /\ contains "--input" (message e)
       /\ contains "--data" (message e)
       /\ contains "stdin" (message e).
Proof.
  split.
  - refine (proj1 (getInput_errors piped_empty_world ∅ _ _) (or_intror _) [] [] _ _);
      by vm_compute.
  - apply (getInput_errors sample_world (parseArgs ascii_host ["--bucket"; "b"]));
      by vm_compute.
Defined.

(** ** path.basename *)

Lemma basename_walk_slash_free rev_path matchedSlash component :
  slash ∉ component -> slash ∉ basename_walk rev_path matchedSlash component.
Proof.
  revert matchedSlash component.
  induction rev_path as [|c before IH]; intros m component Hc; simpl; [done|].
  case_decide as Hslash.
  - destruct m; [by apply IH | done].
  - apply IH. rewrite not_elem_of_cons. split; [congruence | done].
Qed.

(** Once inside the component, the walk collects a slash-free run whole. *)
Lemma basename_walk_run run before component :
  slash ∉ run ->
  basename_walk (run ++ before) false component
  = basename_walk before false (rev run ++ component).
Proof.
  revert component. induction run as [|c run IH]; intros component Hrun; simpl; [done|].
  apply not_elem_of_cons in Hrun as [Hc Hrun].
  rewrite decide_False by congruence.
  rewrite IH by done. by rewrite <- app_assoc.
Qed.

Lemma basename_walk_enter c run before matchedSlash :
  slash ∉ c :: run ->
  basename_walk ((c :: run) ++ before) matchedSlash []
  = basename_walk before false (rev (c :: run)).
Proof.
  intros Hrun. pose proof Hrun as [Hc Hrun']%not_elem_of_cons. simpl.
  rewrite decide_False by congruence.
  by rewrite basename_walk_run.
Qed.

Lemma basename_slash_free path : slash_free (basename path).
Proof.
  unfold slash_free, basename.
  rewrite String.list_ascii_of_string_of_list_ascii.
  apply basename_walk_slash_free, not_elem_of_nil.
Qed.

Lemma list_of_string_nonempty s : s <> "" -> String.list_ascii_of_string s <> [].
Proof. by destruct s. Qed.

Lemma elem_of_rev {A} (x : A) (l : list A) : x ∈ rev l <-> x ∈ l.
Proof. rewrite !list_elem_of_In. symmetry. apply in_rev. Qed.

Lemma rev_nonempty_inv {A} (l : list A) : l <> [] -> exists c run, rev l = c :: run.
Proof.
  intros Hl. destruct (rev l) as [|c run] eqn:E; [|by eauto].
  apply (f_equal (@rev A)) in E. rewrite rev_involutive in E. done.
Qed.

(** The base name of [dir/name] is [name]. *)
Lemma basename_strips_directory dir name :
  name <> "" -> slash_free name -> basename (dir +:+ "/" +:+ name) = name.
Proof.
  intros Hne Hfree. unfold basename, slash_free in *.
  rewrite !list_of_app. simpl.
  rewrite rev_app_distr. simpl. rewrite <- app_assoc. simpl.
  destruct (rev_nonempty_inv _ (list_of_string_nonempty _ Hne)) as (c & run & Hrev).
  assert (slash ∉ c :: run) as Hrun.
  { rewrite <- Hrev. by rewrite elem_of_rev. }
  rewrite Hrev, (basename_walk_enter c run) by done. simpl.
  change (rev run ++ [c]) with (rev (c :: run)).
  rewrite <- Hrev, rev_involutive.
  apply String.string_of_list_ascii_of_string.
Qed.

(** A path without directories is its own base name. *)
Lemma basename_plain name : slash_free name -> basename name = name.
Proof.
  intros Hfree. unfold basename, slash_free in *.
  destruct name as [|a name]; [done|].
  destruct (rev_nonempty_inv (String.list_ascii_of_string (String a name))) as (c & run & Hrev);
    [done|].
  assert (slash ∉ c :: run) as Hrun.
  { rewrite <- Hrev. by rewrite elem_of_rev. }
  rewrite <- (app_nil_r (rev _)), Hrev, (basename_walk_enter c run) by done. simpl.
  change (rev run ++ [c]) with (rev (c :: run)).
  rewrite <- Hrev, rev_involutive.
  apply String.string_of_list_ascii_of_string.
Qed.

(** ** The timestamp of the default destination *)

Lemma replace_colon_dot_length ts :
  String.length (replace_colon_dot ts) = String.length ts.
Proof. induction ts as [|c ts IH]; simpl; [done | by rewrite IH]. Qed.

Lemma replace_colon_dot_get ts i c :
  String.get i ts = Some c ->
  String.get i (replace_colon_dot ts)
  = Some (if decide (c = ":"%char \/ c = "."%char) then dash else c).
Proof.
  revert i. induction ts as [|d ts IH]; intros i; simpl; [done|].
  destruct i as [|i]; [by intros [= ->] | apply IH].
Qed.

(** ** inferDestination *)

(** A bare [--input] with no destination: [parseArgs] stores [true]
    under [input], and [inferDestination] returns no name, it throws the
    [TypeError] of [path.basename(true)]. *)
Lemma inferDestination_bare_input_throws :
  parseArgs ascii_host ["--input"] !! "destination" = None
  /\ parseArgs ascii_host ["--input"] !! "input" = Some VTrue
  /\ inferDestination sample_world (parseArgs ascii_host ["--input"])
     = Throw (mkError ("The " +:+ dquote +:+ "path" +:+ dquote +:+
                       " argument must be of type string. Received type boolean (true)")).
Proof. split; [|split]; by vm_compute. Qed.

(** C4.  Destination resolution, for every option mapping: a present
    (truthy) [destination] option is returned as it is; otherwise, when
    [input] holds a file path (a non-empty string), the result is the
    base name of that path, which has no directory part left (it is
    slash-free, it is [name] for a path [dir/name], and it is the path
    itself when the path has no directory); otherwise, when [input] is
    absent or empty, the result is [document-<timestamp>.json], where
    the timestamp is the clock's ISO 8601 text with each ':' and '.'
    replaced by '-' and every other character kept in place.  So
    [--input foo.json] and [--input some/dir/foo.json] both resolve to
    [foo.json].  In the one case that is left, no destination and
    [input] the [true] of a bare [--input], nothing is returned:
    [path.basename] throws its [TypeError], whatever the other options
    and the clock are.  These four cases cover every option mapping. *)
Theorem inferDestination_precedence (w : World) (options : gmap string value) :
  (truthy (options !! "destination") = true ->
     inferDestination w options = Return (options !! "destination"))
  /\ (truthy (options !! "destination") = false ->
      forall path, options !! "input" = Some (VStr path) -> path <> "" ->
        inferDestination w options = Return (Some (VStr (basename path)))
        /\ slash_free (basename path)
        /\ (forall dir name,
              path = dir +:+ "/" +:+ name -> name <> "" -> slash_free name ->
              basename path = name)
        /\ (slash_free path -> basename path = path))
  /\ (truthy (options !! "destination") = false ->
      truthy (options !! "input") = false ->
      inferDestination w options
      = Return (Some (VStr ("document-" +:+ replace_colon_dot (now_toISOString w)
                            +:+ ".json")))
      /\ String.length (replace_colon_dot (now_toISOString w))
         = String.length (now_toISOString w)
      /\ forall i c,
           String.get i (now_toISOString w) = Some c ->
           String.get i (replace_colon_dot (now_toISOString w))
           = Some (if decide (c = ":"%char \/ c = "."%char) then dash else c))
  /\ (forall w',
        inferDestination w' (parseArgs ascii_host ["--input"; "foo.json"])
        = Return (Some (VStr "foo.json"))
        /\ inferDestination w' (parseArgs ascii_host ["--input"; "some/dir/foo.json"])
           = Return (Some (VStr "foo.json")))
  /\ (truthy (options !! "destination") = false ->
      options !! "input" = Some VTrue ->
      (forall name, inferDestination w options <> Return name)
      /\ exists e, inferDestination w options = Throw e
           /\ contains "argument must be of type string" (message e)
           /\ contains "Received type boolean (true)" (message e))
  /\ (truthy (options !! "destination") = true
      \/ (truthy (options !! "destination") = false
          /\ exists path, options !! "input" = Some (VStr path) /\ path <> "")
      \/ (truthy (options !! "destination") = false
          /\ truthy (options !! "input") = false)
      \/ (truthy (options !! "destination") = false
          /\ options !! "input" = Some VTrue)).
Proof.
  split; [|split; [|split; [|split; [|split]]]]; unfold inferDestination.
  - by intros ->.
  - intros -> path Hinput Hpath. rewrite Hinput. simpl.
    rewrite bool_decide_eq_false_2 by done. simpl.
    split; [done|]. split; [apply basename_slash_free|]. split.
    + intros dir name -> Hname Hfree. by apply basename_strips_directory.
    + apply basename_plain.
  - intros -> ->. split; [done|]. split.
    + apply replace_colon_dot_length.
    + apply replace_colon_dot_get.
  - intros w'. split; by vm_compute.
  - intros -> Hinput. rewrite Hinput. simpl. split; [done|].
    eexists. split; [done|]. simpl. split.
    + occurs_between ("The " +:+ dquote +:+ "path" +:+ dquote +:+ " ")
                     ". Received type boolean (true)".
    + occurs_between ("The " +:+ dquote +:+ "path" +:+ dquote +:+
                      " argument must be of type string. ") "".
  - destruct (truthy (options !! "destination")); [by left | right].
    destruct (options !! "input") as [[path|]|] eqn:Hinput.
    + destruct (decide (path = "")) as [->|Hpath].
      * right. by left.
      * left. split; [done|]. by exists path.
    + right. right. done.
    + right. by left.
Qed.

Lemma inferDestination_precedence_witness :
  inferDestination sample_world
    (parseArgs ascii_host ["--destination"; "reports/latest.json"; "--input"; "dir/foo.json"])
  = Return (Some (VStr "reports/latest.json"))
  /\ inferDestination sample_world (parseArgs ascii_host ["--input"; "dir/foo.json"])
     = Return (Some (VStr "foo.json"))
  /\ inferDestination sample_world (parseArgs ascii_host ["--data"; "null"])
     = Return (Some (VStr "document-2024-01-02T03-04-05-678Z.json"))
  /\ forall name,
       inferDestination sample_world (parseArgs ascii_host ["--input"; "--compact"])
       <> Return name.
Proof.
  split; [|split; [|split]].
  - apply (inferDestination_precedence sample_world
             (parseArgs ascii_host
                ["--destination"; "reports/latest.json"; "--input"; "dir/foo.json"])).
    by vm_compute.
  - refine (proj1 (proj1 (proj2
      (inferDestination_precedence sample_world
         (parseArgs ascii_host ["--input"; "dir/foo.json"]))) _ "dir/foo.json" _ _));
      by vm_compute.
  - refine (proj1 (proj1 (proj2 (proj2
      (inferDestination_precedence sample_world
         (parseArgs ascii_host ["--data"; "null"])))) _ _)); by vm_compute.
  - refine (proj1 (proj1 (proj2 (proj2 (proj2 (proj2
      (inferDestination_precedence sample_world
         (parseArgs ascii_host ["--input"; "--compact"])))))) _ _)); by vm_compute.
Defined.

(** ** preparePayload *)

(** C2.  Payload preparation fails exactly when [JSON.parse] fails on the
    raw text; the error it then throws has a message that contains
    [not valid JSON] and the parser's own message.  When parsing
    succeeds it returns the parsed value serialised again (with no
    indentation under a truthy [compact], with two spaces otherwise) and
    the UTF-8 byte length of that string. *)
Theorem preparePayload_spec (h : Host) (rawJson : string) (options : gmap string value) :
  ((exists e, preparePayload h rawJson options = Throw e)
   <-> (exists error, JSON_parse h rawJson = Throw error))
  /\ (forall error, JSON_parse h rawJson = Throw error ->
        exists e, preparePayload h rawJson options = Throw e
          /\ contains "not valid JSON" (message e)
          /\ contains (message error) (message e))
  /\ (forall parsed, JSON_parse h rawJson = Return parsed ->
        preparePayload h rawJson options
        = Return {| jsonString :=
                      JSON_stringify h parsed (if truthy (options !! "compact") then 0 else 2);
                    bytes :=
                      byteLength
                        (JSON_stringify h parsed
                           (if truthy (options !! "compact") then 0 else 2)) |}).
Proof.
  unfold preparePayload. split; [|split].
  - destruct (JSON_parse h rawJson) as [parsed|error]; split.
    + by intros [e He].
    + by intros [e He].
    + intros _. by exists error.
    + intros _. by eexists.
  - intros error ->. eexists. split; [done|]. simpl. split.
    + exists "Input is ", (": " +:+ message error). reflexivity.
    + exists "Input is not valid JSON: ", "". by rewrite app_empty_r.
  - by intros parsed ->.
Qed.

Lemma preparePayload_spec_witness :
  (exists e, preparePayload ascii_host "{oops" ∅ = Throw e
     /\ contains "not valid JSON" (message e)
     /\ contains "Unexpected token" (message e))
  /\ preparePayload ascii_host "true" ∅ = Return {| jsonString := "true"; bytes := 4 |}.
Proof.
  split.
  - apply (proj1 (proj2 (preparePayload_spec ascii_host "{oops" ∅))
             (mkError "Unexpected token")).
    by vm_compute.
  - apply (proj2 (proj2 (preparePayload_spec ascii_host "true" ∅)) LTrue).
    by vm_compute.
Defined.

(** *** The number host reads back what it prints *)

Lemma digit_value_char d : (d < 10)%N -> digit_value (pretty_N_char d) = Some d.
Proof.
  intros Hd.
  assert (d = 0 \/ d = 1 \/ d = 2 \/ d = 3 \/ d = 4 \/ d = 5 \/ d = 6 \/ d = 7
          \/ d = 8 \/ d = 9)%N as Hcases by lia.
  by repeat (destruct Hcases as [->|Hcases]); [..|subst d].
Qed.

Lemma digits_value_app a b acc :
  digits_value (a +:+ b) acc = digits_value a acc ≫= digits_value b.
Proof.
  revert acc. induction a as [|c a IH]; intros acc; [done|].
  rewrite app_cons. simpl. destruct (digit_value c); [apply IH | done].
Qed.

Lemma digits_value_no_e s acc v : digits_value s acc = Some v -> indexOf "e" s = None.
Proof.
  revert acc. induction s as [|c s IH]; intros acc; simpl; [done|].
  destruct (digit_value c) eqn:Hc; [|done]. intros Hs.
  rewrite decide_False; [by rewrite (IH _ Hs)|].
  intros ->. by vm_compute in Hc.
Qed.

(** The decimal text of a positive [x]: digits that do not start with
    [0] and that read back as [x]. *)
Lemma pretty_N_go_digits x :
  (0 < x)%N ->
  exists c ds k,
    (forall s, pretty_N_go x s = String c (ds +:+ s))
    /\ c <> "0"%char
    /\ forall acc, digits_value (String c ds) acc = Some (acc * 10 ^ k + x)%N.
Proof.
  induction (N.lt_wf_0 x) as [x _ IH]. intros Hx.
  destruct (decide (x < 10)%N) as [Hsmall|Hbig].
  - exists (pretty_N_char x), "", 1%N. split; [|split].
    + intros s. rewrite pretty_N_go_step by done.
      rewrite N.div_small, N.mod_small by done. by rewrite pretty_N_go_0.
    + intros Hc. pose proof (digit_value_char x Hsmall) as Hd.
      rewrite Hc in Hd. vm_compute in Hd. injection Hd as <-. lia.
    + intros acc. simpl. rewrite digit_value_char by done. f_equal. lia.
  - destruct (IH (x `div` 10)%N) as (c & ds & k & Hgo & Hc & Hval).
    { apply N.div_lt; lia. }
    { apply N.div_str_pos; lia. }
    exists c, (ds +:+ String (pretty_N_char (x `mod` 10)) ""), (k + 1)%N.
    split; [|split; [done|]].
    + intros s. rewrite pretty_N_go_step, Hgo by done.
      rewrite app_assoc_string. reflexivity.
    + intros acc. rewrite <- app_cons, digits_value_app, Hval. simpl.
      rewrite digit_value_char by (apply N.mod_lt; lia). f_equal.
      rewrite N.pow_add_r. pose proof (N.div_mod x 10). lia.
Qed.

Lemma number_parse_pretty (n : N) :
  (n < 2 ^ 53)%N -> number_parse (pretty n) = Return (JNumber n).
Proof.
  intros Hn.
  assert (integer_literal (pretty n) = Some n
          /\ exists v, digits_value (pretty n) 0 = Some v) as [Hint [v Hdigits]].
  { unfold pretty, pretty_N. destruct (decide (n = 0%N)) as [->|Hpos].
    - split; [done | by eexists].
    - destruct (pretty_N_go_digits n) as (c & ds & k & Hgo & Hc & Hval); [lia|].
      rewrite Hgo, app_empty_r. unfold integer_literal.
      rewrite decide_False by done. rewrite Hval. split; [f_equal; lia | by eexists]. }
  unfold number_parse, number_literal.
  rewrite (digits_value_no_e _ _ _ Hdigits), Hint.
  repeat (rewrite decide_False;
    [|intros Htext; rewrite Htext in Hdigits; by vm_compute in Hdigits]).
  by rewrite (proj2 (N.ltb_lt _ _) Hn).
Qed.

(** A number that [number_parse] returns is below 2^53. *)
Lemma number_parse_range text n :
  number_parse text = Return (JNumber n) -> (n < 2 ^ 53)%N.
Proof.
  unfold number_parse. repeat (case_decide; [done|]).
  destruct (number_literal text) as [exact|]; [|done].
  destruct (exact <? 2 ^ 53)%N eqn:Hlt.
  - intros [= <-]. by apply N.ltb_lt.
  - by destruct (2 ^ 1024 <=? exact)%N.
Qed.

(** On [number_host], printing a parsed value and parsing the text
    again gives the value back for every value but [Infinity]. *)
Lemma number_host_round_trip text v spaces :
  number_parse text = Return v ->
  number_parse (number_stringify v spaces) = Return v <-> v <> JInfinity.
Proof.
  intros Hparse. destruct v as [| | |n|]; simpl.
  - done.
  - done.
  - done.
  - split; [done|]. intros _. apply number_parse_pretty.
    by apply (number_parse_range text).
  - split; [by vm_compute | done].
Qed.

(** On [number_host], whatever the options: the payload of a text that
    parses to [parsed] parses back to [parsed] exactly when [parsed] is
    not [Infinity]. *)
Lemma number_host_payload_round_trip rawJson (parsed : JSON number_host)
    (options : gmap string value) :
  JSON_parse number_host rawJson = Return parsed ->
  exists p, preparePayload number_host rawJson options = Return p
    /\ (JSON_parse number_host (jsonString p) = Return parsed <-> parsed <> JInfinity).
Proof.
  intros Hparse. unfold preparePayload. rewrite Hparse. eexists. split; [done|].
  simpl. by apply (number_host_round_trip rawJson).
Qed.




(** ** main *)

Lemma getInput_trace w options :
  (getInput w options).1 = []
  \/ (getInput w options).1 = [readFile_call (options !! "input")]
  \/ (getInput w options).1 = [stdin_listen].
Proof.
  unfold getInput.
  destruct (truthy (options !! "data")); [by left|].
  destruct (truthy (options !! "input")); [by right; left|].
  destruct (truthy (options !! "stdin") || negb (stdin_isTTY w)); [|by left].
  right; right. unfold readFromStdin, await.
  destruct (readFromStdin_loop _ _) as [text| |]; [|done..].
  by destruct (bool_decide (text = "")).
Qed.

Lemma getInput_no_save w options :
  Forall (fun e => is_save e = false) (getInput w options).1.
Proof.
  destruct (getInput_trace w options) as [-> | [-> | ->]]; by repeat constructor.
Qed.

(** The effects of [await m] followed by [k]: those of [m], then those
    of [k] when [m] resolves. *)
Lemma await_trace {A B} (m : Async A) (k : A -> Async B) :
  (await m k).1
  = m.1 ++ match m.2 with
           | Resolved a => (k a).1
           | _ => []
           end.
Proof.
  destruct m as [t [a|e|]]; simpl; rewrite ?app_nil_r; [|done..].
  by destruct (k a).
Qed.

Lemma await_call_trace {A B} (c : completion A) (k : A -> Async B) :
  (await (call c) k).1
  = match c with
    | Return a => (k a).1
    | Throw _ => []
    end.
Proof. rewrite await_trace. by destruct c. Qed.

Lemma await_perform_trace {B} (e : effect) (k : unit -> Async B) :
  (await (perform e) k).1 = e :: (k tt).1.
Proof. by rewrite await_trace. Qed.

(** The script prints on the error stream only after [main] is over. *)
Lemma run_trace h w argv :
  exists last, (run h w argv).1 = (main h w argv).1 ++ last
               /\ Forall (fun e => is_save e = false) last.
Proof.
  unfold run. destruct (main h w argv) as [t [[]|e|]]; simpl.
  - exists []. by rewrite app_nil_r.
  - eexists. split; [done|]. by repeat constructor.
  - exists []. by rewrite app_nil_r.
Qed.

(** The upload a run performs, if any: there is none under a dry run,
    and its options are those [main] builds from the arguments. *)
Lemma run_saves h w argv bucket destination data options :
  save_call bucket destination data options ∈ (run h w argv).1 ->
  truthy (parseArgs h argv !! "dryRun") = false
  /\ options
     = {| resumable := false;
          contentType := "application/json";
          metadata_cacheControl :=
            if truthy (parseArgs h argv !! "cacheControl")
            then Some (parseArgs h argv !! "cacheControl") else None |}.
Proof.
  set (P := fun e : effect =>
    is_save e = true ->
    truthy (parseArgs h argv !! "dryRun") = false
    /\ exists b d t,
         e = save_call b d t
               {| resumable := false;
                  contentType := "application/json";
                  metadata_cacheControl :=
                    if truthy (parseArgs h argv !! "cacheControl")
                    then Some (parseArgs h argv !! "cacheControl") else None |}).
  assert (forall t, Forall (fun e => is_save e = false) t -> Forall P t) as Hno.
  { intros t Ht. eapply Forall_impl; [exact Ht|]. intros e He Hsave. congruence. }
  assert (forall e, is_save e = false -> P e) as Hno1 by (intros e He Hsave; congruence).
  assert (Forall P (run h w argv).1) as Hall.
  { destruct (run_trace h w argv) as (last & -> & Hlast).
    apply Forall_app. split; [|by apply Hno].
    unfold main.
    destruct (truthy (parseArgs h argv !! "help")); [by apply Hno; repeat constructor|].
    destruct (truthy (parseArgs h argv !! "bucket")); cbn [negb];
      [|by apply Hno; simpl; repeat constructor].
    rewrite await_trace. apply Forall_app. split; [by apply Hno, getInput_no_save|].
    destruct (getInput w (parseArgs h argv)).2 as [rawJson|e|]; [|by constructor..].
    rewrite await_call_trace.
    destruct (preparePayload h rawJson (parseArgs h argv)) as [payload|e];
      [|by constructor].
    rewrite await_call_trace.
    destruct (inferDestination w (parseArgs h argv)) as [dest|e]; [|by constructor].
    rewrite await_perform_trace.
    apply Forall_cons. split; [by apply Hno1|].
    destruct (truthy (parseArgs h argv !! "dryRun")) eqn:Hdry.
    { apply Hno. by repeat constructor. }
    rewrite await_trace. cbn [fst snd app].
    apply Forall_cons. split.
    { intros _. split; [done|]. by eexists _, _, _. }
    apply Hno. destruct (storage_save w _ _ _ _) as [[]|e|]; by repeat constructor. }
  intros Hel. apply (proj1 (Forall_forall _ _) Hall) in Hel.
  destruct (Hel eq_refl) as (Hdry & b & d & t & Heq). split; [done|].
  by injection Heq.
Qed.

(** C5.  A run whose [dryRun] flag is set never calls the storage
    client's [save], in any environment and whatever else is on the
    command line.  When the run gets as far as the flag (no help
    requested, a bucket given, the input resolved and prepared, the
    destination inferred) it prints one summary line with the payload's
    byte count and the target [gs://<bucket>/<destination>], and ends
    there with exit status 0. *)
Theorem dry_run_never_saves (h : Host) (w : World) (argv : list string) :
  truthy (parseArgs h argv !! "dryRun") = true ->
  (forall bucket destination data options,
     save_call bucket destination data options ∉ (run h w argv).1)
  /\ (forall rawJson payload destination,
        truthy (parseArgs h argv !! "help") = false ->
        truthy (parseArgs h argv !! "bucket") = true ->
        (getInput w (parseArgs h argv)).2 = Resolved rawJson ->
        preparePayload h rawJson (parseArgs h argv) = Return payload ->
        inferDestination w (parseArgs h argv) = Return destination ->
        run h w argv
        = ((getInput w (parseArgs h argv)).1
           ++ [new_Storage (parseArgs h argv !! "project")
                           (parseArgs h argv !! "credentials");
               console_log (dry_run_line payload (parseArgs h argv !! "bucket") destination)],
           Exit 0)
        /\ contains (pretty (bytes payload) +:+ " bytes")
             (dry_run_line payload (parseArgs h argv !! "bucket") destination)
        /\ contains ("gs://" +:+ js_String (parseArgs h argv !! "bucket") +:+ "/"
                     +:+ js_String destination)
             (dry_run_line payload (parseArgs h argv !! "bucket") destination)).
Proof.
  intros Hdry. split.
  - intros bucket destination data options Hel.
    apply run_saves in Hel as [Hno _]. congruence.
  - intros rawJson payload destination Hhelp Hbucket Hinput Hpayload Hdest.
    split; [|split].
    + unfold run, main. rewrite Hhelp, Hbucket, Hdry. simpl.
      destruct (getInput w (parseArgs h argv)) as [t p]. simpl in *. subst p.
      rewrite Hpayload, Hdest. simpl. done.
    + unfold dry_run_line.
      exists "[dry-run] Valid JSON (",
        ("). Would upload to gs://" +:+ js_String (parseArgs h argv !! "bucket") +:+ "/"
         +:+ js_String destination).
      rewrite ?app_assoc_string. reflexivity.
    + unfold dry_run_line.
      exists ("[dry-run] Valid JSON (" +:+ pretty (bytes payload)
              +:+ " bytes). Would upload to "), "".
      rewrite app_empty_r, ?app_assoc_string. reflexivity.
Qed.

Lemma dry_run_never_saves_witness :
  (forall bucket destination data options,
     save_call bucket destination data options
     ∉ (run ascii_host sample_world ["--bucket"; "b"; "--data"; "null"; "--dry-run"]).1)
  /\ run ascii_host sample_world ["--bucket"; "b"; "--data"; "null"; "--dry-run"]
     = ([new_Storage None None;
         console_log ("[dry-run] Valid JSON (4 bytes). Would upload to "
                      +:+ "gs://b/document-2024-01-02T03-04-05-678Z.json")],
        Exit 0).
Proof.
  split.
  - refine (proj1 (dry_run_never_saves ascii_host sample_world
                     ["--bucket"; "b"; "--data"; "null"; "--dry-run"] _)).
    by vm_compute.
  - refine (proj1 (proj2 (dry_run_never_saves ascii_host sample_world
                            ["--bucket"; "b"; "--data"; "null"; "--dry-run"] _)
                     "null" {| jsonString := "null"; bytes := 4 |}
                     (Some (VStr "document-2024-01-02T03-04-05-678Z.json")) _ _ _ _ _));
      by vm_compute.
Defined.

(** C8.  When the [help] flag is set the run prints the usage text and
    ends with exit status 0, having done nothing else.  When it is not
    set and no bucket is given (the [bucket] option is not truthy) the
    run prints the usage text, then the message of the missing-bucket
    error on the error stream, and ends with exit status 1: no input
    source is touched and nothing is uploaded. *)
Theorem run_help_and_missing_bucket (h : Host) (w : World) (argv : list string) :
  (truthy (parseArgs h argv !! "help") = true ->
     run h w argv = ([console_log helpText], Exit 0))
  /\ (truthy (parseArgs h argv !! "help") = false ->
      truthy (parseArgs h argv !! "bucket") = false ->
      run h w argv
      = ([console_log helpText; console_error "Missing required --bucket option."],
         Exit 1)).
Proof.
  unfold run, main. split.
  - by intros ->.
  - by intros -> ->.
Qed.

Lemma run_help_and_missing_bucket_witness :
  run ascii_host sample_world ["-h"; "--bucket"; "b"; "--stdin"]
  = ([console_log helpText], Exit 0)
  /\ run ascii_host sample_world ["--input"; "dir/foo.json"]
     = ([console_log helpText; console_error "Missing required --bucket option."],
        Exit 1).
Proof.
  split.
  - refine (proj1 (run_help_and_missing_bucket ascii_host sample_world
                     ["-h"; "--bucket"; "b"; "--stdin"]) _).
    by vm_compute.
  - refine (proj2 (run_help_and_missing_bucket ascii_host sample_world
                     ["--input"; "dir/foo.json"]) _ _); by vm_compute.
Defined.



(** ** parseArgs *)

(** Induction along the loop of [parseArgs], which moves on by one token
    or by two. *)
Lemma argv_ind (P : list string -> Prop) :
  P [] ->
  (forall token rest,
     P rest -> (forall next rest', rest = next :: rest' -> P rest') -> P (token :: rest)) ->
  forall argv, P argv.
Proof.
  intros Hnil Hstep argv.
  cut (P argv /\ forall next rest', argv = next :: rest' -> P rest'); [by intros []|].
  induction argv as [|token rest [IH1 IH2]]; [done|].
  split; [by apply Hstep|]. by intros next rest' [= _ <-].
Qed.

(** The body of the loop. *)
Lemma parseArgs_from_cons h token rest args :
  parseArgs_from h (token :: rest) args
  = if negb (startsWith "-" token) then parseArgs_from h rest args
    else
      let '(key, value) := split_token h token in
      if negb (property_truthy key) then parseArgs_from h rest args
      else
        match value with
        | Some v => parseArgs_from h rest (<[toPropertyKey key := VStr v]> args)
        | None =>
            match rest with
            | next :: rest' =>
                if negb (startsWith "-" next)
                then parseArgs_from h rest' (<[toPropertyKey key := VStr next]> args)
                else parseArgs_from h rest (<[toPropertyKey key := VTrue]> args)
            | [] => parseArgs_from h rest (<[toPropertyKey key := VTrue]> args)
            end
        end.
Proof. reflexivity. Qed.

(** One turn of the loop. *)
Lemma parseArgs_from_step h token rest args :
  parseArgs_from h (token :: rest) args
  = match token_key h token with
    | None => parseArgs_from h rest args
    | Some k =>
        parseArgs_from h
          (if consumes_next (split_token h token).2 rest then tail rest else rest)
          (<[k := assigned_value (split_token h token).2 rest]> args)
    end.
Proof.
  rewrite parseArgs_from_cons. unfold token_key.
  destruct (startsWith "-" token); cbn [negb]; [|done].
  destruct (split_token h token) as [key [v|]]; cbn [fst snd];
    destruct (property_truthy key); cbn [negb consumes_next assigned_value]; try done.
  destruct rest as [|next rest']; [done|].
  by destruct (startsWith "-" next).
Qed.

(** A key that no token assigns keeps what it had. *)
Lemma parseArgs_from_untouched h k argv :
  forall args,
    (forall token, token ∈ argv -> token_key h token <> Some k) ->
    parseArgs_from h argv args !! k = args !! k.
Proof.
  induction argv as [|token rest IH1 IH2] using argv_ind; intros args Hno; [done|].
  rewrite parseArgs_from_step.
  assert (forall t, t ∈ rest -> token_key h t <> Some k) as Hrest.
  { intros t Ht. apply Hno. by right. }
  destruct (token_key h token) as [k'|] eqn:Hkey; [|by apply IH1].
  assert (k' <> k) as Hne.
  { intros ->. by apply (Hno token); [left|]. }
  destruct (consumes_next _ rest) eqn:Hnext.
  - destruct rest as [|next rest']; [by destruct (split_token h token).2|].
    cbn [tail]. rewrite (IH2 next rest' eq_refl); [by rewrite lookup_insert_ne|].
    intros t Ht. apply Hrest. by right.
  - rewrite IH1 by done. by rewrite lookup_insert_ne.
Qed.

(** A flag is never taken for the value of the flag before it, so the
    tokens before a flag are parsed on their own. *)
Lemma parseArgs_from_app h token rest before :
  startsWith "-" token = true ->
  forall args,
    parseArgs_from h (before ++ token :: rest) args
    = parseArgs_from h (token :: rest) (parseArgs_from h before args).
Proof.
  intros Hdash.
  induction before as [|t before IH1 IH2] using argv_ind; intros args; [done|].
  rewrite <- app_comm_cons, !(parseArgs_from_step h t).
  destruct (token_key h t) as [k|]; [|by apply IH1].
  destruct before as [|next before']; cbn [app].
  - destruct (split_token h t).2; cbn [consumes_next assigned_value]; [done|].
    by rewrite Hdash.
  - destruct (split_token h t).2; cbn [consumes_next assigned_value]; [by apply IH1|].
    destruct (startsWith "-" next); cbn [negb tail]; [by apply IH1|].
    by apply (IH2 next before').
Qed.

Lemma token_key_dash h token k : token_key h token = Some k -> startsWith "-" token = true.
Proof. unfold token_key. by destruct (startsWith "-" token). Qed.

(** What is left to parse after a flag is part of what followed it. *)
Lemma after_flag_subseteq (inline : option string) (rest : list string) token :
  token ∈ (if consumes_next inline rest then tail rest else rest) -> token ∈ rest.
Proof.
  destruct (consumes_next inline rest); [|done].
  destruct rest as [|next rest']; [done|]. simpl. by right.
Qed.

(** Last occurrence wins: the value of a key is the one its last flag
    gave it. *)
Lemma parseArgs_last_wins h before token rest k :
  token_key h token = Some k ->
  (forall t, t ∈ rest -> token_key h t <> Some k) ->
  parseArgs h (before ++ token :: rest) !! k
  = Some (assigned_value (split_token h token).2 rest).
Proof.
  intros Hkey Hlast. unfold parseArgs.
  rewrite parseArgs_from_app by (by eapply token_key_dash).
  rewrite parseArgs_from_step, Hkey.
  rewrite parseArgs_from_untouched; [by rewrite lookup_insert_eq|].
  intros t Ht. by eapply Hlast, after_flag_subseteq.
Qed.

(** The value rule, case by case. *)
Lemma assigned_value_cases (inline : option string) (rest : list string) :
  (forall v, inline = Some v -> assigned_value inline rest = VStr v)
  /\ (forall next rest',
        inline = None -> rest = next :: rest' -> startsWith "-" next = false ->
        assigned_value inline rest = VStr next)
  /\ (forall next rest',
        inline = None -> rest = next :: rest' -> startsWith "-" next = true ->
        assigned_value inline rest = VTrue)
  /\ (inline = None -> rest = [] -> assigned_value inline rest = VTrue).
Proof.
  split; [|split; [|split]].
  - by intros v ->.
  - intros next rest' -> -> Hnext. simpl. by rewrite Hnext.
  - intros next rest' -> -> Hnext. simpl. by rewrite Hnext.
  - by intros -> ->.
Qed.

(** A token that assigns no key leaves the object as it was. *)
Lemma parseArgs_dropped h before token rest :
  startsWith "-" token = true -> token_key h token = None ->
  parseArgs h (before ++ token :: rest) = parseArgs_from h rest (parseArgs h before).
Proof.
  intros Hdash Hkey. unfold parseArgs.
  by rewrite parseArgs_from_app, parseArgs_from_step, Hkey.
Qed.

(** ** The keys of the option object *)

Lemma assoc_Some key table v : assoc key table = Some v -> v ∈ table.*2.
Proof.
  induction table as [|[k v'] table IH]; simpl; [done|].
  case_decide; [intros [= ->]; by left | intros Hv; right; by apply IH].
Qed.

Lemma flag_table_names : Forall (fun name => name ∈ canonical_names) flag_table.*2.
Proof. apply (bool_decide_unpack _). by vm_compute. Qed.

Lemma lookup_property_Own key name :
  lookup_property key = Own name -> name ∈ canonical_names.
Proof.
  unfold lookup_property.
  destruct (assoc key flag_table) as [v|] eqn:Hassoc.
  - intros [= <-]. apply assoc_Some in Hassoc.
    by apply (proj1 (Forall_forall _ _) flag_table_names).
  - by repeat case_decide.
Qed.

Lemma lookup_property_inherited key :
  lookup_property key <> Undefined ->
  toPropertyKey (lookup_property key) ∈ canonical_names
  \/ toPropertyKey (lookup_property key) ∈ inherited_keys.
Proof.
  intros Hdef. destruct (lookup_property key) as [name|name| |] eqn:Hkey; [| | |done].
  - left. by apply lookup_property_Own in Hkey.
  - right. unfold lookup_property in Hkey.
    destruct (assoc key flag_table); [done|].
    case_decide as Hmember; [|by case_decide].
    injection Hkey as <-. unfold inherited_keys. right.
    by apply (list_elem_of_fmap_2
                (fun member => "function " +:+ function_name member +:+ "() { [native code] }")).
  - right. by left.
Qed.

Lemma split_token_fst h token : exists key, (split_token h token).1 = lookup_property key.
Proof.
  unfold split_token, normalizeKey.
  destruct (indexOf _ _); simpl; by eexists.
Qed.

Lemma token_key_range h token k :
  token_key h token = Some k -> k ∈ canonical_names \/ k ∈ inherited_keys.
Proof.
  unfold token_key. destruct (startsWith "-" token); [|done].
  destruct (split_token_fst h token) as [key ->].
  destruct (property_truthy (lookup_property key)) eqn:Htruthy; [|done].
  intros [= <-]. apply lookup_property_inherited. by intros Hundef; rewrite Hundef in Htruthy.
Qed.

(** Every key of the parsed object was assigned by a token. *)
Lemma parseArgs_from_keys h k argv :
  forall args,
    is_Some (parseArgs_from h argv args !! k) ->
    is_Some (args !! k) \/ exists token, token ∈ argv /\ token_key h token = Some k.
Proof.
  induction argv as [|token rest IH1 IH2] using argv_ind; intros args; [by left|].
  rewrite parseArgs_from_step.
  destruct (token_key h token) as [k'|] eqn:Hkey.
  - intros Hk.
    assert (is_Some (<[k':=assigned_value (split_token h token).2 rest]> args !! k)
            \/ exists t, t ∈ rest /\ token_key h t = Some k) as [Hins|(t & Ht & Htk)].
    { destruct (consumes_next _ rest) eqn:Hnext; [|by apply IH1].
      destruct rest as [|next rest']; [by destruct (split_token h token).2|].
      destruct (IH2 next rest' eq_refl _ Hk) as [|(t & Ht & Htk)]; [by left|].
      right. exists t. split; [by right | done]. }
    + destruct (decide (k' = k)) as [->|Hne].
      * right. exists token. split; [by left | done].
      * left. by rewrite lookup_insert_ne in Hins.
    + right. exists t. split; [by right | done].
  - intros Hk. destruct (IH1 _ Hk) as [|(t & Ht & Htk)]; [by left|].
    right. exists t. split; [by right | done].
Qed.

(** The keys of the parsed object: the canonical option names, and the
    texts of members of [Object.prototype]. *)
Lemma parseArgs_keys h argv k :
  is_Some (parseArgs h argv !! k) -> k ∈ canonical_names \/ k ∈ inherited_keys.
Proof.
  intros Hk. destruct (parseArgs_from_keys h k argv ∅ Hk) as [Hempty|(t & _ & Ht)].
  - rewrite lookup_empty in Hempty. by destruct Hempty.
  - by eapply token_key_range.
Qed.

(** Where no flag names a member of [Object.prototype], the table reads
    as intended: every key is a canonical option name. *)
Lemma parseArgs_keys_canonical h argv k :
  (forall token k', token ∈ argv -> token_key h token = Some k' -> k' ∉ inherited_keys) ->
  is_Some (parseArgs h argv !! k) -> k ∈ canonical_names.
Proof.
  intros Hown Hk. destruct (parseArgs_from_keys h k argv ∅ Hk) as [Hempty|(t & Hin & Ht)].
  - rewrite lookup_empty in Hempty. by destruct Hempty.
  - destruct (token_key_range _ _ _ Ht) as [|Hinh]; [done|].
    by destruct (Hown t k Hin Ht).
Qed.

(** The flags that assign no key are those whose key reads as
    [undefined] in the table. *)
Lemma token_key_None h token :
  startsWith "-" token = true ->
  token_key h token = None <-> (split_token h token).1 = Undefined.
Proof.
  intros Hdash. unfold token_key. rewrite Hdash.
  destruct (split_token_fst h token) as [key Hkey]. rewrite Hkey.
  destruct (lookup_property key) as [name|name| |] eqn:Hprop; simpl; try done.
  apply lookup_property_Own in Hprop.
  destruct (decide (name = "")) as [->|Hname].
  - exfalso. revert Hprop. apply (bool_decide_unpack _). by vm_compute.
  - by rewrite bool_decide_eq_false_2.
Qed.

(** The repeated flag of the usage notes. *)
Example parseArgs_repeated_bucket :
  parseArgs ascii_host ["--bucket"; "a"; "--bucket"; "b"] = {[ "bucket" := VStr "b" ]}.
Proof. by vm_compute. Qed.

(** C6.  The flag [--constructor] names a member of [Object.prototype]:
    its key does not normalise to a canonical option name, since the
    table lookup yields the built-in function [Object], yet the token is
    not dropped.  It is stored, with its value, under the text of that
    function, so the parsed object differs from the one parsed without
    the flag. *)
Theorem parseArgs_inherited_member_not_dropped :
  normalizeKey ascii_host "constructor" = BuiltinFunction "Object"
  /\ parseArgs ascii_host ["--constructor"; "x"]
     = {[ "function Object() { [native code] }" := VStr "x" ]}
  /\ parseArgs ascii_host ["--constructor"; "x"] <> parseArgs ascii_host ["x"].
Proof. split; [|split]; by vm_compute. Qed.

(** C10.  The option object parsed from [--constructor] has a key that
    is none of the eleven canonical option names. *)
Theorem parseArgs_key_outside_canonical_names :
  exists k,
    parseArgs ascii_host ["--constructor"] !! k = Some VTrue
    /\ k ∉ canonical_names.
Proof.
  exists "function Object() { [native code] }". split; [by vm_compute|].
  apply (bool_decide_unpack _). by vm_compute.
Qed.

(** ** Whole runs *)

(** An upload from a file, with cache-control metadata. *)
Example run_upload_from_file :
  run ascii_host sample_world
    ["--bucket"; "b"; "-i"; "dir/foo.json"; "--cache-control=no-store"; "--compact"]
  = ([readFile_call (Some (VStr "dir/foo.json"));
      new_Storage None None;
      save_call (Some (VStr "b")) (Some (VStr "foo.json")) "true"
        {| resumable := false;
           contentType := "application/json";
           metadata_cacheControl := Some (Some (VStr "no-store")) |};
      console_log "Uploaded 4 bytes to gs://b/foo.json"],
     Exit 0).
Proof. by vm_compute. Qed.

(** A missing file: the I/O error reaches the top level as it is. *)
Example run_missing_file :
  run ascii_host sample_world ["--bucket"; "b"; "--input"; "missing.json"]
  = ([readFile_call (Some (VStr "missing.json"));
      console_error "ENOENT: no such file or directory"],
     Exit 1).
Proof. by vm_compute. Qed.

(** Text that is not JSON: nothing is uploaded. *)
Example run_invalid_json :
  run ascii_host sample_world ["--bucket"; "b"; "--data"; "{oops"]
  = ([console_error "Input is not valid JSON: Unexpected token"], Exit 1).
Proof. by vm_compute. Qed.

(** A bare [--input] next to [--data]: the input is resolved from
    [data], and the destination cannot be inferred from [true]. *)
Example run_bare_input_flag :
  exists text,
    run ascii_host sample_world ["--bucket"; "b"; "--data"; "null"; "--input"]
    = ([console_error text], Exit 1)
    /\ contains "must be of type string" text.
Proof.
  eexists. split; [by vm_compute|].
  exists ("The " +:+ dquote +:+ "path" +:+ dquote +:+ " argument "),
         ". Received type boolean (true)".
  by vm_compute.
Qed.

(** * Further properties *)

(** ** readFromStdin *)

(** Every stream of events is a run of chunks that is followed by the
    end, followed by an error, or followed by nothing. *)
Lemma stdin_events_shape (events : list stdin_event) :
  (exists chunks later, events = (on_data <$> chunks) ++ on_end :: later)
  \/ (exists chunks e later, events = (on_data <$> chunks) ++ on_error e :: later)
  \/ (exists chunks, events = on_data <$> chunks).
Proof.
  induction events as [|[chunk| |e] events IH].
  - right; right. by exists [].
  - destruct IH as [(chunks & later & ->)|[(chunks & e & later & ->)|(chunks & ->)]].
    + left. by exists (chunk :: chunks), later.
    + right; left. by exists (chunk :: chunks), e, later.
    + right; right. by exists (chunk :: chunks).
  - left. by exists [], events.
  - right; left. by exists [], e, events.
Qed.

(** X1.  [readFromStdin] has exactly three outcomes, decided by the first
    event that is not a chunk: at the end event it resolves with all the
    chunks delivered so far put together, in order; at an error event it
    rejects with that error, the chunks read so far being lost; with
    neither it stays pending.  Whatever the stream delivers after that
    event has no effect. *)
Theorem readFromStdin_outcomes (w : World) :
  (exists chunks later,
     stdin_events w = (on_data <$> chunks) ++ on_end :: later
     /\ readFromStdin w = ([stdin_listen], Resolved (stream_text chunks)))
  \/ (exists chunks e later,
        stdin_events w = (on_data <$> chunks) ++ on_error e :: later
        /\ readFromStdin w = ([stdin_listen], Rejected e))
  \/ (exists chunks,
        stdin_events w = on_data <$> chunks
        /\ readFromStdin w = ([stdin_listen], Pending)).
Proof.
  destruct (stdin_events_shape (stdin_events w))
    as [(chunks & later & Hev)|[(chunks & e & later & Hev)|(chunks & Hev)]].
  - left. exists chunks, later. split; [done|].
    by apply (proj1 (readFromStdin_spec w chunks) later).
  - right; left. exists chunks, e, later. split; [done|].
    by apply (proj1 (proj2 (readFromStdin_spec w chunks)) e later).
  - right; right. exists chunks. split; [done|].
    by apply (proj2 (proj2 (readFromStdin_spec w chunks))).
Qed.

(** ** getInput *)

(** X2.  Input resolution consults one source at most, and the flags
    never make it read a source of lower rank: a file is read only when
    [data] is not present, and standard input is listened to only when
    neither [data] nor [input] is present, even if the [stdin] flag is
    set. *)
Theorem getInput_single_source (w : World) (options : gmap string value) :
  length (getInput w options).1 <= 1
  /\ (forall path,
        readFile_call path ∈ (getInput w options).1 ->
        truthy (options !! "data") = false
        /\ truthy (options !! "input") = true
        /\ path = options !! "input")
  /\ (stdin_listen ∈ (getInput w options).1 ->
      truthy (options !! "data") = false
      /\ truthy (options !! "input") = false
      /\ (truthy (options !! "stdin") = true \/ stdin_isTTY w = false)).
Proof.
  assert ((await (readFromStdin w)
             (fun stdinData =>
                if bool_decide (stdinData = "")
                then reject (mkError "No data received from stdin.")
                else resolve stdinData)).1 = [stdin_listen]) as Hawait.
  { rewrite await_trace. simpl.
    destruct (readFromStdin_loop _ _) as [text| |]; [|done..].
    by destruct (bool_decide (text = "")). }
  unfold getInput.
  destruct (truthy (options !! "data")).
  { cbn. split; [lia|]. split; [intros path|]; by rewrite elem_of_nil. }
  destruct (truthy (options !! "input")).
  { cbn. split; [lia|]. split.
    - by intros path [= ->]%list_elem_of_singleton.
    - by intros [=]%list_elem_of_singleton. }
  destruct (truthy (options !! "stdin")) eqn:Hstdin, (stdin_isTTY w) eqn:Htty;
    cbn [orb negb]; rewrite ?Hawait.
  - split; [done|]. split; [|auto]. by intros path [=]%list_elem_of_singleton.
  - split; [done|]. split; [|auto]. by intros path [=]%list_elem_of_singleton.
  - cbn. split; [lia|]. split; [intros path|]; by rewrite elem_of_nil.
  - split; [done|]. split; [|auto]. by intros path [=]%list_elem_of_singleton.
Qed.

Lemma getInput_single_source_witness :
  truthy (parseArgs ascii_host ["--stdin"; "--input"; "dir/foo.json"] !! "data") = false
  /\ truthy (parseArgs ascii_host ["--stdin"; "--input"; "dir/foo.json"] !! "input") = true
  /\ Some (VStr "dir/foo.json")
     = parseArgs ascii_host ["--stdin"; "--input"; "dir/foo.json"] !! "input".
Proof.
  refine (proj1 (proj2 (getInput_single_source sample_world
            (parseArgs ascii_host ["--stdin"; "--input"; "dir/foo.json"])))
            (Some (VStr "dir/foo.json")) _).
  vm_compute. apply list_elem_of_here.
Defined.

(** X3.  An empty text can only come out of a file: when input
    resolution yields the empty string, the source was the [input] file.
    Inline data and standard input never yield it. *)
Theorem getInput_empty_only_from_file (w : World) (options : gmap string value) :
  (getInput w options).2 = Resolved "" ->
  truthy (options !! "data") = false
  /\ truthy (options !! "input") = true
  /\ getInput w options = ([readFile_call (options !! "input")], Resolved "").
Proof.
  unfold getInput.
  destruct (truthy (options !! "data")) eqn:Hdata; simpl.
  { unfold truthy in Hdata. destruct (options !! "data") as [[s|]|]; simpl; [|done..].
    intros [= ->]. done. }
  destruct (truthy (options !! "input")); simpl; [by intros ->|].
  destruct (truthy (options !! "stdin") || negb (stdin_isTTY w)); simpl; [|done].
  destruct (readFromStdin_loop _ _) as [text| |]; simpl; [|done..].
  destruct (bool_decide (text = "")) eqn:Htext; simpl; [done|].
  intros [= ->]. by rewrite bool_decide_eq_true_2 in Htext.
Qed.

Lemma getInput_empty_only_from_file_witness :
  truthy (parseArgs ascii_host ["--input"; "dir/foo.json"] !! "data") = false
  /\ truthy (parseArgs ascii_host ["--input"; "dir/foo.json"] !! "input") = true
  /\ getInput empty_file_world (parseArgs ascii_host ["--input"; "dir/foo.json"])
     = ([readFile_call (parseArgs ascii_host ["--input"; "dir/foo.json"] !! "input")],
        Resolved "").
Proof.
  apply (getInput_empty_only_from_file empty_file_world
           (parseArgs ascii_host ["--input"; "dir/foo.json"])).
  by vm_compute.
Defined.

(** X4.  Failures of standard input.  When standard input is the source
    and the stream reports an error before it ends, the resolution
    rejects with the stream's own error, whatever was read before; when
    the stream neither ends nor fails, the resolution never settles. *)
Theorem getInput_stdin_failure (w : World) (options : gmap string value)
    (chunks : list string) :
  truthy (options !! "data") = false ->
  truthy (options !! "input") = false ->
  truthy (options !! "stdin") = true \/ stdin_isTTY w = false ->
  (forall e later,
     stdin_events w = (on_data <$> chunks) ++ on_error e :: later ->
     getInput w options = ([stdin_listen], Rejected e))
  /\ (stdin_events w = on_data <$> chunks ->
      getInput w options = ([stdin_listen], Pending)).
Proof.
  intros Hdata Hinput Hstdin. unfold getInput. rewrite Hdata, Hinput.
  assert (truthy (options !! "stdin") || negb (stdin_isTTY w) = true) as ->.
  { destruct Hstdin as [-> | ->]; [done | by rewrite orb_true_r]. }
  destruct (readFromStdin_spec w chunks) as (_ & Herr & Hpend). split.
  - intros e later Hev. by rewrite (Herr e later Hev).
  - intros Hev. by rewrite (Hpend Hev).
Qed.

Lemma getInput_stdin_failure_witness :
  getInput broken_pipe_world ∅ = ([stdin_listen], Rejected (mkError "read EIO"))
  /\ getInput stalled_pipe_world ∅ = ([stdin_listen], Pending).
Proof.
  split.
  - refine (proj1 (getInput_stdin_failure broken_pipe_world ∅ ["nu"] _ _ (or_intror _))
              (mkError "read EIO") [on_data "ll"; on_end] _); by vm_compute.
  - refine (proj2 (getInput_stdin_failure stalled_pipe_world ∅ ["null"] _ _ (or_intror _))
              _); by vm_compute.
Defined.

(** ** inferDestination *)

(** X5.  Destination resolution fails in one case only: no [destination]
    is present and [input] is the bare flag, whose value [true] is no
    path.  The error it throws is the type error of [path.basename].  In
    every other case it returns a name. *)
Theorem inferDestination_throws_iff (w : World) (options : gmap string value) :
  ((exists e, inferDestination w options = Throw e)
   <-> truthy (options !! "destination") = false /\ options !! "input" = Some VTrue)
  /\ (forall e, inferDestination w options = Throw e ->
        contains "argument must be of type string" (message e)).
Proof.
  unfold inferDestination.
  destruct (truthy (options !! "destination")).
  { split; [|done]. split; [by intros [e He] | by intros [? _]]. }
  destruct (options !! "input") as [[path|]|] eqn:Hinput; simpl.
  - split; [|by destruct (bool_decide (path = ""))].
    split; [|by intros [_ ?]].
    intros [e He]. by destruct (bool_decide (path = "")).
  - split; [split; [done | by eexists]|].
    intros e [= <-]. simpl.
    exists ("The " +:+ dquote +:+ "path" +:+ dquote +:+ " "),
           ". Received type boolean (true)".
    by vm_compute.
  - split; [|done]. split; [by intros [e He] | by intros [_ ?]].
Qed.

Lemma replace_colon_dot_free ts c :
  c = ":"%char \/ c = "."%char -> char_free c (replace_colon_dot ts).
Proof.
  intros Hc. unfold char_free.
  induction ts as [|a ts IH]; simpl; [apply not_elem_of_nil|].
  apply not_elem_of_cons. split; [|done].
  case_decide as Ha.
  - by destruct Hc as [-> | ->].
  - intros ->. by apply Ha.
Qed.

(** X6.  The default destination is safe as an object name: it is
    [document-<stem>.json] where the stem is as long as the clock's
    timestamp and holds neither ':' nor '.', so the only dot of the name
    is the one of its extension. *)
Theorem inferDestination_default_name (w : World) (options : gmap string value) :
  truthy (options !! "destination") = false ->
  truthy (options !! "input") = false ->
  exists stem,
    inferDestination w options = Return (Some (VStr ("document-" +:+ stem +:+ ".json")))
    /\ String.length stem = String.length (now_toISOString w)
    /\ char_free ":" stem
    /\ char_free "." stem.
Proof.
  intros Hdest Hinput. exists (replace_colon_dot (now_toISOString w)).
  unfold inferDestination. rewrite Hdest, Hinput.
  split; [done|]. split; [apply replace_colon_dot_length|].
  split; apply replace_colon_dot_free; auto.
Qed.

Lemma inferDestination_default_name_witness :
  exists stem,
    inferDestination sample_world (parseArgs ascii_host ["--bucket"; "b"])
    = Return (Some (VStr ("document-" +:+ stem +:+ ".json")))
    /\ String.length stem = String.length (now_toISOString sample_world)
    /\ char_free ":" stem
    /\ char_free "." stem.
Proof.
  apply (inferDestination_default_name sample_world (parseArgs ascii_host ["--bucket"; "b"]));
    by vm_compute.
Defined.

Lemma basename_walk_nonempty rev_path matchedSlash component :
  component <> [] -> basename_walk rev_path matchedSlash component <> [].
Proof.
  revert matchedSlash component.
  induction rev_path as [|c before IH]; intros m component Hne; simpl; [done|].
  case_decide; [destruct m; [by apply IH | done] | by apply IH].
Qed.

Lemma basename_walk_empty_iff rev_path :
  basename_walk rev_path true [] = [] <-> Forall (fun c => c = slash) rev_path.
Proof.
  induction rev_path as [|c before IH]; simpl; [done|].
  case_decide as Hc.
  - rewrite IH, Forall_cons. split; [by intros ? | by intros [_ ?]].
  - rewrite Forall_cons. split; [|by intros [? _]].
    intros Hempty. by apply basename_walk_nonempty in Hempty.
Qed.

Lemma Forall_rev_iff {A} (P : A -> Prop) (l : list A) : Forall P (rev l) <-> Forall P l.
Proof. rewrite !Forall_forall. by setoid_rewrite elem_of_rev. Qed.

Lemma string_of_list_empty (l : list ascii) :
  String.string_of_list_ascii l = "" <-> l = [].
Proof. by destruct l. Qed.

(** X7.  An input path made of slashes only has an empty base name, and
    no other path has: with no [destination] and an [input] path, the
    inferred destination is the empty string exactly for such paths. *)
Theorem inferDestination_empty_name_iff (w : World) (options : gmap string value)
    (path : string) :
  truthy (options !! "destination") = false ->
  options !! "input" = Some (VStr path) ->
  path <> "" ->
  inferDestination w options = Return (Some (VStr "")) <-> only_slashes path.
Proof.
  intros Hdest Hinput Hpath. unfold inferDestination. rewrite Hdest, Hinput. simpl.
  rewrite bool_decide_eq_false_2 by done. simpl.
  unfold only_slashes, basename.
  rewrite <- (Forall_rev_iff _ (String.list_ascii_of_string path)).
  rewrite <- basename_walk_empty_iff, <- string_of_list_empty.
  split; [by intros [= ->] | by intros ->].
Qed.

Lemma inferDestination_empty_name_iff_witness :
  inferDestination sample_world (parseArgs ascii_host ["--input"; "//"])
  = Return (Some (VStr "")) <-> only_slashes "//".
Proof.
  apply (inferDestination_empty_name_iff sample_world
           (parseArgs ascii_host ["--input"; "//"]) "//"); by vm_compute.
Defined.

(** ** parseArgs: keys and values *)

Lemma parseArgs_from_nil h args : parseArgs_from h [] args = args.
Proof. reflexivity. Qed.

(** The object built from [args] is the object built from nothing, laid
    over [args]. *)
Lemma parseArgs_from_union h argv :
  forall args, parseArgs_from h argv args = parseArgs h argv ∪ args.
Proof.
  unfold parseArgs.
  induction argv as [|token rest IH1 IH2] using argv_ind; intros args.
  { by rewrite !parseArgs_from_nil, (left_id_L ∅ (∪)). }
  rewrite !(parseArgs_from_step h token).
  destruct (token_key h token) as [k|]; [|by apply IH1].
  set (v := assigned_value (split_token h token).2 rest).
  assert (forall a, parseArgs_from h
                      (if consumes_next (split_token h token).2 rest then tail rest else rest) a
                    = parseArgs_from h
                        (if consumes_next (split_token h token).2 rest then tail rest else rest) ∅
                      ∪ a) as Hrest.
  { destruct (consumes_next _ rest); [|done].
    destruct rest as [|next rest']; [done|]. by apply (IH2 next rest'). }
  rewrite (Hrest (<[k:=v]> args)), (Hrest (<[k:=v]> ∅)).
  by rewrite insert_empty, <- (assoc_L (∪)), <- insert_union_singleton_l.
Qed.

(** Among the tokens that assign a key there is a last one. *)
Lemma last_assigning_token h k argv :
  (exists t, t ∈ argv /\ token_key h t = Some k) ->
  exists before token rest,
    argv = before ++ token :: rest
    /\ token_key h token = Some k
    /\ forall t, t ∈ rest -> token_key h t <> Some k.
Proof.
  induction argv as [|a argv IH]; intros (t & Hin & Ht); [by apply elem_of_nil in Hin|].
  destruct (decide (Exists (fun t => token_key h t = Some k) argv)) as [Hlater|Hnone].
  - apply Exists_exists in Hlater.
    destruct (IH Hlater) as (before & token & rest & -> & Hkey & Hlast).
    by exists (a :: before), token, rest.
  - exists [], a, argv. split; [done|]. split.
    + apply elem_of_cons in Hin as [->|Hin]; [done|].
      destruct Hnone. apply Exists_exists. eauto.
    + intros t' Hin' Ht'. destruct Hnone. apply Exists_exists. eauto.
Qed.

Lemma parseArgs_key_present_iff_aux h argv k :
  is_Some (parseArgs h argv !! k) -> exists token, token ∈ argv /\ token_key h token = Some k.
Proof.
  intros Hk. destruct (parseArgs_from_keys h k argv ∅ Hk) as [Hempty|]; [|done].
  rewrite lookup_empty in Hempty. by destruct Hempty.
Qed.

(** X8.  The value of a key is decided by the last flag that names it,
    under any of its spellings: its inline value when it has one;
    otherwise the token that follows it, unless that token starts with a
    dash or there is none, in which case the value is [true].  Flags of
    the same key before it, and every token after it that names another
    key, make no difference. *)
Theorem parseArgs_last_flag_decides (h : Host) (before : list string) (token : string)
    (rest : list string) (k : string) :
  token_key h token = Some k ->
  (forall t, t ∈ rest -> token_key h t <> Some k) ->
  parseArgs h (before ++ token :: rest) !! k
  = Some match (split_token h token).2, rest with
         | Some v, _ => VStr v
         | None, next :: _ => if startsWith "-" next then VTrue else VStr next
         | None, [] => VTrue
         end.
Proof. apply parseArgs_last_wins. Qed.

Lemma parseArgs_last_flag_decides_witness :
  parseArgs ascii_host (["--bucket"; "a"; "-b=c"] ++ "--BUCKET" :: ["b"; "--dry-run"; "x"])
  !! "bucket"
  = Some (VStr "b").
Proof.
  refine (parseArgs_last_flag_decides ascii_host ["--bucket"; "a"; "-b=c"] "--BUCKET"
            ["b"; "--dry-run"; "x"] "bucket" _ _).
  - by vm_compute.
  - apply (proj1 (Forall_forall (fun t => token_key ascii_host t <> Some "bucket")
                    ["b"; "--dry-run"; "x"])).
    apply (bool_decide_unpack _). by vm_compute.
Defined.

(** X9.  A key is in the parsed object exactly when some token of the
    command line assigns it: a token that starts with a dash and whose
    key the table knows.  Tokens without a dash never add a key, whether
    they are taken as values or skipped. *)
Theorem parseArgs_key_present_iff (h : Host) (argv : list string) (k : string) :
  is_Some (parseArgs h argv !! k)
  <-> exists token, token ∈ argv /\ token_key h token = Some k.
Proof.
  split; [apply parseArgs_key_present_iff_aux|].
  - intros Hsome.
    destruct (last_assigning_token h k argv Hsome) as (before & token & rest & -> & Hkey & Hlast).
    rewrite (parseArgs_last_wins h before token rest k) by done. by eexists.
Qed.

(** X10.  Parsing can be cut in front of any token that starts with a
    dash: the object of the whole command line is the object of the part
    from that token on, laid over the object of the part before it, so
    where both parts assign a key the later part decides. *)
Theorem parseArgs_cut_at_flag (h : Host) (before : list string) (token : string)
    (rest : list string) :
  startsWith "-" token = true ->
  parseArgs h (before ++ token :: rest)
  = parseArgs h (token :: rest) ∪ parseArgs h before.
Proof.
  intros Hdash. unfold parseArgs at 1.
  rewrite parseArgs_from_app by done.
  apply parseArgs_from_union.
Qed.

Lemma parseArgs_cut_at_flag_witness :
  parseArgs ascii_host (["--bucket"; "a"; "--compact"] ++ "--bucket" :: ["b"])
  = parseArgs ascii_host ("--bucket" :: ["b"])
    ∪ parseArgs ascii_host ["--bucket"; "a"; "--compact"].
Proof.
  apply (parseArgs_cut_at_flag ascii_host ["--bucket"; "a"; "--compact"] "--bucket" ["b"]).
  by vm_compute.
Defined.

(** X11.  A flag the table does not know is ignored, and so is a value
    that follows it; but the flag still ends the flag before it, which
    cannot take it as a value.  The object parsed with the unknown flag
    in place is the object of what follows it laid over the object of
    what precedes it. *)
Theorem parseArgs_unknown_flag (h : Host) (before : list string) (token : string)
    (rest : list string) :
  startsWith "-" token = true ->
  (split_token h token).1 = Undefined ->
  parseArgs h (before ++ token :: rest) = parseArgs h rest ∪ parseArgs h before
  /\ forall value,
       startsWith "-" value = false ->
       parseArgs h (before ++ token :: value :: rest)
       = parseArgs h rest ∪ parseArgs h before.
Proof.
  intros Hdash Hundef.
  assert (token_key h token = None) as Hkey by (by apply token_key_None).
  split.
  - rewrite parseArgs_dropped by done. apply parseArgs_from_union.
  - intros value Hvalue. rewrite parseArgs_dropped by done.
    rewrite parseArgs_from_step.
    assert (token_key h value = None) as ->.
    { unfold token_key. by rewrite Hvalue. }
    apply parseArgs_from_union.
Qed.

Lemma parseArgs_unknown_flag_witness :
  parseArgs ascii_host (["--bucket"] ++ "--verbose" :: ["--compact"])
  = parseArgs ascii_host ["--compact"] ∪ parseArgs ascii_host ["--bucket"]
  /\ forall value,
       startsWith "-" value = false ->
       parseArgs ascii_host (["--bucket"] ++ "--verbose" :: value :: ["--compact"])
       = parseArgs ascii_host ["--compact"] ∪ parseArgs ascii_host ["--bucket"].
Proof.
  apply (parseArgs_unknown_flag ascii_host ["--bucket"] "--verbose" ["--compact"]);
    by vm_compute.
Defined.

(** X12.  Where the values of the parsed object come from.  A string
    value is the inline value of a flag of that key, or a token of the
    command line that does not start with a dash; so a value that starts
    with a dash can only be given inline.  The value [true] comes from a
    flag of that key written without an inline value. *)
Theorem parseArgs_value_provenance (h : Host) (argv : list string) (k : string) :
  (forall v,
     parseArgs h argv !! k = Some (VStr v) ->
     (exists token,
        token ∈ argv /\ token_key h token = Some k /\ (split_token h token).2 = Some v)
     \/ (v ∈ argv /\ startsWith "-" v = false))
  /\ (parseArgs h argv !! k = Some VTrue ->
      exists token,
        token ∈ argv /\ token_key h token = Some k /\ (split_token h token).2 = None).
Proof.
  assert (forall x, parseArgs h argv !! k = Some x ->
            exists before token rest,
              argv = before ++ token :: rest
              /\ token_key h token = Some k
              /\ x = assigned_value (split_token h token).2 rest) as Hlast.
  { intros x Hx.
    assert (is_Some (parseArgs h argv !! k)) as Hsome by (by eexists).
    apply parseArgs_key_present_iff_aux in Hsome.
    destruct (last_assigning_token h k argv Hsome)
      as (before & token & rest & -> & Hkey & Hlater).
    rewrite (parseArgs_last_wins h before token rest k) in Hx by done.
    injection Hx as <-. by exists before, token, rest. }
  split.
  - intros v Hv. destruct (Hlast _ Hv) as (before & token & rest & -> & Hkey & Hval).
    destruct (split_token h token).2 as [inline|] eqn:Hinline; simpl in Hval.
    + injection Hval as ->. left. exists token.
      split; [|done]. apply elem_of_app. right. by left.
    + destruct rest as [|next rest']; [done|].
      destruct (startsWith "-" next) eqn:Hnext; [done|].
      injection Hval as ->. right. split; [|done].
      apply elem_of_app. right. right. by left.
  - intros Hv. destruct (Hlast _ Hv) as (before & token & rest & -> & Hkey & Hval).
    exists token. split; [apply elem_of_app; right; by left|]. split; [done|].
    by destruct (split_token h token).2.
Qed.

Lemma parseArgs_value_provenance_witness :
  (exists token,
     token ∈ ["--data=-5"; "--bucket"; "-b"]
     /\ token_key ascii_host token = Some "data"
     /\ (split_token ascii_host token).2 = Some "-5")
  \/ ("-5" ∈ ["--data=-5"; "--bucket"; "-b"] /\ startsWith "-" "-5" = false).
Proof.
  apply (proj1 (parseArgs_value_provenance ascii_host ["--data=-5"; "--bucket"; "-b"] "data")).
  by vm_compute.
Defined.

(** ** parseArgs: the syntax of a flag *)

Lemma indexOf_app c key rest :
  char_free c key -> indexOf c (key +:+ String c rest) = Some (String.length key).
Proof.
  unfold char_free. induction key as [|a key IH]; simpl; intros Hfree.
  - by rewrite decide_True.
  - apply not_elem_of_cons in Hfree as [Hne Hfree].
    rewrite decide_False by congruence. by rewrite IH.
Qed.

Lemma indexOf_free c key : char_free c key -> indexOf c key = None.
Proof.
  unfold char_free. induction key as [|a key IH]; simpl; intros Hfree; [done|].
  apply not_elem_of_cons in Hfree as [Hne Hfree].
  rewrite decide_False by congruence. by rewrite IH.
Qed.

Lemma slice_to_app key rest : slice_to (String.length key) (key +:+ rest) = key.
Proof.
  induction key as [|a key IH]; simpl; [by destruct rest|]. by rewrite IH.
Qed.

Lemma slice_app key c rest : slice (String.length key + 1) (key +:+ String c rest) = rest.
Proof. induction key as [|a key IH]; simpl; done. Qed.

Lemma startsWith_empty s : startsWith "" s = true.
Proof. by destruct s. Qed.

Lemma startsWith_cons c p s : startsWith (String c p) (String c s) = startsWith p s.
Proof. unfold startsWith. simpl. by destruct (Ascii.ascii_dec c c). Qed.

Lemma startsWith_two_dashes s : startsWith "--" ("--" +:+ s) = true.
Proof.
  change ("--" +:+ s) with (String dash (String dash s)).
  change "--" with (String dash (String dash "")).
  by rewrite !startsWith_cons, startsWith_empty.
Qed.

Lemma startsWith_dash s : startsWith "-" (String dash s) = true.
Proof.
  change "-" with (String dash "").
  by rewrite startsWith_cons, startsWith_empty.
Qed.

(** X13.  The inline form [--key=value].  The key is what stands before
    the first '=' and the value is everything after it, which may be
    empty, start with a dash or hold further '=' signs; the token that
    follows the flag is not taken as its value.  Without any '=' the
    flag has no inline value. *)
Theorem parseArgs_inline_value (h : Host) (key v : string) (rest : list string)
    (args : gmap string value) :
  char_free "=" key ->
  split_token h ("--" +:+ key +:+ "=" +:+ v)
  = (normalizeKey h (strip_leading_dashes key), Some v)
  /\ split_token h ("--" +:+ key) = (normalizeKey h (strip_leading_dashes key), None)
  /\ (property_truthy (normalizeKey h (strip_leading_dashes key)) = true ->
      parseArgs_from h (("--" +:+ key +:+ "=" +:+ v) :: rest) args
      = parseArgs_from h rest
          (<[toPropertyKey (normalizeKey h (strip_leading_dashes key)) := VStr v]> args)).
Proof.
  intros Hfree.
  assert (split_token h ("--" +:+ key +:+ "=" +:+ v)
          = (normalizeKey h (strip_leading_dashes key), Some v)) as Hinline.
  { unfold split_token. rewrite startsWith_two_dashes.
    change (slice 2 ("--" +:+ key +:+ "=" +:+ v)) with (key +:+ String "=" v).
    rewrite (indexOf_app _ _ _ Hfree).
    by rewrite slice_to_app, slice_app. }
  split; [done|]. split.
  - unfold split_token. rewrite startsWith_two_dashes.
    change (slice 2 ("--" +:+ key)) with key.
    by rewrite (indexOf_free _ _ Hfree).
  - intros Htruthy. rewrite parseArgs_from_cons.
    change ("--" +:+ key +:+ "=" +:+ v) with (String dash ("-" +:+ key +:+ "=" +:+ v)) at 1.
    rewrite startsWith_dash. cbn [negb]. rewrite Hinline. by rewrite Htruthy.
Qed.

Lemma parseArgs_inline_value_witness :
  split_token ascii_host ("--" +:+ "data" +:+ "=" +:+ "{x=-1}")
  = (normalizeKey ascii_host (strip_leading_dashes "data"), Some "{x=-1}")
  /\ split_token ascii_host ("--" +:+ "data")
     = (normalizeKey ascii_host (strip_leading_dashes "data"), None)
  /\ (property_truthy (normalizeKey ascii_host (strip_leading_dashes "data")) = true ->
      parseArgs_from ascii_host (("--" +:+ "data" +:+ "=" +:+ "{x=-1}") :: ["next"]) ∅
      = parseArgs_from ascii_host ["next"]
          (<[toPropertyKey (normalizeKey ascii_host (strip_leading_dashes "data"))
             := VStr "{x=-1}"]> ∅)).
Proof.
  apply (parseArgs_inline_value ascii_host "data" "{x=-1}" ["next"] ∅).
  apply (bool_decide_unpack _). by vm_compute.
Defined.

Lemma dashes_app_0 s : dashes 0 +:+ s = s.
Proof. reflexivity. Qed.

Lemma dashes_app_S m s : dashes (S m) +:+ s = String dash (dashes m +:+ s).
Proof. reflexivity. Qed.

Lemma indexOf_dashes m s :
  indexOf "="%char (dashes m +:+ s) = (fun i => m + i) <$> indexOf "="%char s.
Proof.
  induction m as [|m IH].
  - rewrite dashes_app_0. by destruct (indexOf "="%char s).
  - rewrite dashes_app_S. simpl. rewrite IH.
    by destruct (indexOf "="%char s).
Qed.

Lemma slice_to_dashes m i s : slice_to (m + i) (dashes m +:+ s) = dashes m +:+ slice_to i s.
Proof.
  induction m as [|m IH]; [done|].
  rewrite !dashes_app_S. simpl. by rewrite IH.
Qed.

Lemma slice_dashes m i s : slice (m + i) (dashes m +:+ s) = slice i s.
Proof. induction m as [|m IH]; [done|]. by rewrite dashes_app_S. Qed.

Lemma strip_leading_dashes_dashes m s :
  strip_leading_dashes (dashes m +:+ s) = strip_leading_dashes s.
Proof.
  induction m as [|m IH]; [done|].
  rewrite dashes_app_S. simpl. by rewrite ?decide_True.
Qed.

(** The double-dash form a token is brought to. *)
Lemma double_dash_form_single body :
  startsWith "-" body = false ->
  (if startsWith "--" (String dash body) then String dash body
   else "--" +:+ slice 1 (String dash body))
  = "--" +:+ body.
Proof.
  intros Hbody.
  replace (startsWith "--" (String dash body)) with (startsWith "-" body);
    [by rewrite Hbody|].
  symmetry. apply (startsWith_cons dash "-" body).
Qed.

Lemma double_dash_form_more s :
  (if startsWith "--" ("--" +:+ s) then "--" +:+ s else "--" +:+ slice 1 ("--" +:+ s))
  = "--" +:+ s.
Proof. by rewrite startsWith_two_dashes. Qed.

(** X14.  The number of leading dashes does not matter: a flag written
    with one dash, with two, or with more has the same key and the same
    inline value, and is parsed alike. *)
Theorem parseArgs_any_number_of_dashes (h : Host) (n : nat) (body : string)
    (rest : list string) (args : gmap string value) :
  startsWith "-" body = false ->
  split_token h (dashes (S n) +:+ body) = split_token h ("--" +:+ body)
  /\ parseArgs_from h ((dashes (S n) +:+ body) :: rest) args
     = parseArgs_from h (("--" +:+ body) :: rest) args.
Proof.
  intros Hbody.
  assert (split_token h (dashes (S n) +:+ body) = split_token h ("--" +:+ body)) as Hsplit.
  { unfold split_token. cbv zeta. rewrite (double_dash_form_more body).
    destruct n as [|n].
    - rewrite dashes_app_S, dashes_app_0.
      by rewrite (double_dash_form_single body Hbody).
    - change (dashes (S (S n)) +:+ body) with ("--" +:+ dashes n +:+ body).
      rewrite (double_dash_form_more (dashes n +:+ body)).
      change (slice 2 ("--" +:+ dashes n +:+ body)) with (dashes n +:+ body).
      change (slice 2 ("--" +:+ body)) with body.
      rewrite indexOf_dashes.
      destruct (indexOf "="%char body) as [i|]; simpl.
      + rewrite slice_to_dashes, strip_leading_dashes_dashes.
        by rewrite <- (Nat.add_assoc n i 1), slice_dashes.
      + by rewrite strip_leading_dashes_dashes. }
  split; [done|].
  rewrite !parseArgs_from_cons, Hsplit.
  change (dashes (S n) +:+ body) with (String dash (dashes n +:+ body)).
  change ("--" +:+ body) with (String dash ("-" +:+ body)).
  by rewrite !startsWith_dash.
Qed.

Lemma parseArgs_any_number_of_dashes_witness :
  split_token ascii_host (dashes 4 +:+ "bucket=x") = split_token ascii_host ("--" +:+ "bucket=x")
  /\ parseArgs_from ascii_host ((dashes 4 +:+ "bucket=x") :: ["--compact"]) ∅
     = parseArgs_from ascii_host (("--" +:+ "bucket=x") :: ["--compact"]) ∅.
Proof.
  apply (parseArgs_any_number_of_dashes ascii_host 3 "bucket=x" ["--compact"] ∅).
  by vm_compute.
Defined.

(** ** normalizeKey *)

Lemma canonical_names_fixed :
  Forall (fun name => lookup_property (ascii_toLowerCase name) = Own name) canonical_names.
Proof. repeat constructor. Qed.

(** X15.  Normalising is idempotent on ASCII keys: the canonical name a
    key is mapped to is itself a key of the table, mapped to itself.  So
    every canonical name, the camel-case ones included, is accepted as a
    flag of its own. *)
Theorem normalizeKey_idempotent (rawKey name : string) :
  normalizeKey ascii_host rawKey = Own name ->
  normalizeKey ascii_host name = Own name.
Proof.
  intros Hname. apply lookup_property_Own in Hname.
  by apply (proj1 (Forall_forall _ _) canonical_names_fixed).
Qed.

Lemma normalizeKey_idempotent_witness :
  normalizeKey ascii_host "cacheControl" = Own "cacheControl".
Proof.
  apply (normalizeKey_idempotent "Cache-Control" "cacheControl"). by vm_compute.
Defined.

(** ** main: the paths of a run *)

(** The run, path by path. *)
Lemma run_unfold h w argv :
  run h w argv
  = if truthy (parseArgs h argv !! "help") then ([console_log helpText], Exit 0)
    else if negb (truthy (parseArgs h argv !! "bucket")) then
      ([console_log helpText; console_error "Missing required --bucket option."], Exit 1)
    else
      let args := parseArgs h argv in
      let input := (getInput w args).1 in
      match (getInput w args).2 with
      | Pending => (input, NoExit)
      | Rejected e => (input ++ [console_error (message e)], Exit 1)
      | Resolved rawJson =>
          match preparePayload h rawJson args with
          | Throw e => (input ++ [console_error (message e)], Exit 1)
          | Return payload =>
              match inferDestination w args with
              | Throw e => (input ++ [console_error (message e)], Exit 1)
              | Return destination =>
                  let client := new_Storage (args !! "project") (args !! "credentials") in
                  if truthy (args !! "dryRun") then
                    (input ++ [client;
                               console_log (dry_run_line payload (args !! "bucket") destination)],
                     Exit 0)
                  else
                    let saveOptions :=
                      {| resumable := false;
                         contentType := "application/json";
                         metadata_cacheControl :=
                           if truthy (args !! "cacheControl")
                           then Some (args !! "cacheControl") else None |} in
                    let save :=
                      save_call (args !! "bucket") destination (jsonString payload)
                        saveOptions in
                    match storage_save w (args !! "bucket") destination
                            (jsonString payload) saveOptions with
                    | Resolved _ =>
                        (input ++ [client; save;
                                   console_log
                                     (uploaded_line payload (args !! "bucket") destination)],
                         Exit 0)
                    | Rejected e =>
                        (input ++ [client; save; console_error (message e)], Exit 1)
                    | Pending => (input ++ [client; save], NoExit)
                    end
              end
          end
      end.
Proof.
  unfold run, main.
  destruct (truthy (parseArgs h argv !! "help")); [done|].
  destruct (truthy (parseArgs h argv !! "bucket")); cbn [negb]; [|done].
  cbv zeta.
  destruct (getInput w (parseArgs h argv)) as [t [rawJson|e|]]; cbn [fst snd]; [|done..].
  cbn [await].
  destruct (preparePayload h rawJson (parseArgs h argv)) as [payload|e];
    cbn [call resolve reject await]; [|by rewrite app_nil_r].
  destruct (inferDestination w (parseArgs h argv)) as [destination|e];
    cbn [call resolve reject await perform]; [|by rewrite app_nil_r].
  destruct (truthy (parseArgs h argv !! "dryRun")); cbn [perform]; [done|].
  destruct (storage_save w _ _ _ _) as [[]|e|]; cbn [perform app];
    rewrite <- ?app_assoc; done.
Qed.

(** Input resolution performs reads only. *)
Lemma getInput_only_reads w options e :
  e ∈ (getInput w options).1 -> e = readFile_call (options !! "input") \/ e = stdin_listen.
Proof.
  destruct (getInput_trace w options) as [-> | [-> | ->]].
  - by intros ?%elem_of_nil.
  - intros ->%list_elem_of_singleton. by left.
  - intros ->%list_elem_of_singleton. by right.
Qed.

(** Splits a statement about [run] into the ten paths of [run_unfold]. *)
Ltac run_paths h w argv :=
  rewrite (run_unfold h w argv); cbv zeta;
  destruct (truthy (parseArgs h argv !! "help")) eqn:Hhelp;
  [| destruct (truthy (parseArgs h argv !! "bucket")) eqn:Hbucket; cbn [negb];
     [ destruct (getInput w (parseArgs h argv)).2 as [raw_|err_|] eqn:Hinput;
       [ destruct (preparePayload h raw_ (parseArgs h argv)) as [payload_|err_] eqn:Hpayload;
         [ destruct (inferDestination w (parseArgs h argv)) as [dest_|err_] eqn:Hdest;
           [ destruct (truthy (parseArgs h argv !! "dryRun")) eqn:Hdry;
             [| destruct (storage_save w (parseArgs h argv !! "bucket") dest_
                           (jsonString payload_) _) as [[]|err_|] eqn:Hsave ]
           | ]
         | ]
       | | ]
     | ] ];
  cbn [fst snd].

(** Membership in an explicit trace that starts with the reads of
    [getInput]. *)
Ltac in_trace H :=
  repeat first
    [ apply elem_of_app in H as [H|H]
    | apply elem_of_cons in H as [H|H]
    | apply elem_of_nil in H; destruct H
    | apply getInput_only_reads in H as [H|H] ];
  try discriminate H.

Lemma preparePayload_Return h rawJson options payload :
  preparePayload h rawJson options = Return payload ->
  exists parsed,
    JSON_parse h rawJson = Return parsed
    /\ jsonString payload
       = JSON_stringify h parsed (if truthy (options !! "compact") then 0 else 2).
Proof.
  unfold preparePayload. destruct (JSON_parse h rawJson) as [parsed|e]; [|done].
  intros [= <-]. by exists parsed.
Qed.

(** X16.  Only validated JSON is uploaded.  Every [save] a run performs
    carries the re-serialisation of a value that [JSON.parse] produced
    from the resolved input, goes to the bucket of the command line and
    to the inferred destination, is non-resumable and typed
    [application/json]; and it happens only when help was not requested
    and the run is not a dry run. *)
Theorem run_uploads_only_validated_json (h : Host) (w : World) (argv : list string)
    (bucket destination : option value) (data : string) (options : saveOptions) :
  save_call bucket destination data options ∈ (run h w argv).1 ->
  truthy (parseArgs h argv !! "help") = false
  /\ truthy (parseArgs h argv !! "dryRun") = false
  /\ bucket = parseArgs h argv !! "bucket"
  /\ truthy bucket = true
  /\ inferDestination w (parseArgs h argv) = Return destination
  /\ resumable options = false
  /\ contentType options = "application/json"
  /\ exists rawJson parsed,
       (getInput w (parseArgs h argv)).2 = Resolved rawJson
       /\ JSON_parse h rawJson = Return parsed
       /\ data = JSON_stringify h parsed
                   (if truthy (parseArgs h argv !! "compact") then 0 else 2).
Proof.
  run_paths h w argv; intros Hel; in_trace Hel;
    injection Hel as -> -> -> ->;
    destruct (preparePayload_Return _ _ _ _ Hpayload) as (parsed & Hparse & Hjson);
    repeat (split; [done|]); by exists raw_, parsed.
Qed.

Lemma run_uploads_only_validated_json_witness :
  truthy (parseArgs ascii_host ["--bucket"; "b"; "-i"; "dir/foo.json"] !! "help") = false
  /\ truthy (parseArgs ascii_host ["--bucket"; "b"; "-i"; "dir/foo.json"] !! "dryRun") = false
  /\ Some (VStr "b") = parseArgs ascii_host ["--bucket"; "b"; "-i"; "dir/foo.json"] !! "bucket"
  /\ truthy (Some (VStr "b")) = true
  /\ inferDestination sample_world (parseArgs ascii_host ["--bucket"; "b"; "-i"; "dir/foo.json"])
     = Return (Some (VStr "foo.json"))
  /\ resumable (mkSaveOptions false "application/json" None) = false
  /\ contentType (mkSaveOptions false "application/json" None) = "application/json"
  /\ exists rawJson parsed,
       (getInput sample_world
          (parseArgs ascii_host ["--bucket"; "b"; "-i"; "dir/foo.json"])).2
       = Resolved rawJson
       /\ JSON_parse ascii_host rawJson = Return parsed
       /\ "true" = JSON_stringify ascii_host parsed
                     (if truthy (parseArgs ascii_host ["--bucket"; "b"; "-i"; "dir/foo.json"]
                                 !! "compact")
                      then 0 else 2).
Proof.
  apply (run_uploads_only_validated_json ascii_host sample_world
           ["--bucket"; "b"; "-i"; "dir/foo.json"]).
  vm_compute. apply list_elem_of_further, list_elem_of_further, list_elem_of_here.
Defined.

(** X17.  A run uploads at most once. *)
Theorem run_saves_at_most_once (h : Host) (w : World) (argv : list string) :
  length (List.filter is_save (run h w argv).1) <= 1.
Proof.
  assert (List.filter is_save (getInput w (parseArgs h argv)).1 = []) as Hreads.
  { destruct (getInput_trace w (parseArgs h argv)) as [-> | [-> | ->]]; done. }
  run_paths h w argv; rewrite ?List.filter_app, ?Hreads; simpl; lia.
Qed.

(** X18.  The exit status tells whether an error was reported.  A run
    that ends with status 1 has printed exactly one line on the error
    stream, as its last effect; a run that ends otherwise (status 0, or
    never) has printed nothing there.  No other status occurs. *)
Theorem run_exit_status (h : Host) (w : World) (argv : list string) :
  ((run h w argv).2 = Exit 1 ->
     exists t msg,
       (run h w argv).1 = t ++ [console_error msg]
       /\ forall m, console_error m ∉ t)
  /\ ((run h w argv).2 <> Exit 1 -> forall m, console_error m ∉ (run h w argv).1)
  /\ (forall code, (run h w argv).2 = Exit code -> code = 0 \/ code = 1).
Proof.
  split; [|split].
  - run_paths h w argv; intros Hexit; try discriminate Hexit;
      match goal with
      | |- exists t msg, ?input ++ [?a; ?b; console_error ?m] = _ /\ _ =>
          exists (input ++ [a; b]), m; split; [by rewrite <- app_assoc|]
      | |- exists t msg, ?input ++ [console_error ?m] = _ /\ _ =>
          exists input, m; split; [done|]
      | |- exists t msg, [?a; console_error ?m] = _ /\ _ =>
          exists [a], m; split; [done|]
      end;
      intros m' Hel; by in_trace Hel.
  - run_paths h w argv; intros Hexit m Hel; try (by destruct Hexit); by in_trace Hel.
  - run_paths h w argv; intros code Hexit; try discriminate Hexit;
      injection Hexit as <-; auto.
Qed.

Lemma run_exit_status_witness :
  exists t msg,
    (run ascii_host sample_world ["--bucket"; "b"; "--input"; "missing.json"]).1
    = t ++ [console_error msg]
    /\ forall m, console_error m ∉ t.
Proof.
  apply (proj1 (run_exit_status ascii_host sample_world
                  ["--bucket"; "b"; "--input"; "missing.json"])).
  by vm_compute.
Defined.

(** X19.  The outcome of the upload decides the end of the run.  Once a
    run has got as far as the upload (no help, a bucket, no dry run, the
    input resolved and prepared, the destination inferred), it performs
    the reads of the input, constructs the client with the project and
    credentials of the command line and calls [save] once; then, if the
    upload succeeds, it prints the confirmation line and ends with
    status 0; if the upload fails, it prints the message of the client's
    error on the error stream, no confirmation, and ends with status 1;
    and if the upload never settles, neither does the run. *)
Theorem run_upload_outcome (h : Host) (w : World) (argv : list string)
    (rawJson : string) (payload : payload) (destination : option value) :
  truthy (parseArgs h argv !! "help") = false ->
  truthy (parseArgs h argv !! "bucket") = true ->
  truthy (parseArgs h argv !! "dryRun") = false ->
  (getInput w (parseArgs h argv)).2 = Resolved rawJson ->
  preparePayload h rawJson (parseArgs h argv) = Return payload ->
  inferDestination w (parseArgs h argv) = Return destination ->
  exists saveOptions,
    resumable saveOptions = false
    /\ contentType saveOptions = "application/json"
    /\ metadata_cacheControl saveOptions
       = (if truthy (parseArgs h argv !! "cacheControl")
          then Some (parseArgs h argv !! "cacheControl") else None)
    /\ run h w argv
    = ((getInput w (parseArgs h argv)).1
       ++ [new_Storage (parseArgs h argv !! "project") (parseArgs h argv !! "credentials");
           save_call (parseArgs h argv !! "bucket") destination (jsonString payload)
             saveOptions]
       ++ match storage_save w (parseArgs h argv !! "bucket") destination
                  (jsonString payload) saveOptions with
          | Resolved _ =>
              [console_log (uploaded_line payload (parseArgs h argv !! "bucket") destination)]
          | Rejected e => [console_error (message e)]
          | Pending => []
          end,
       match storage_save w (parseArgs h argv !! "bucket") destination
               (jsonString payload) saveOptions with
       | Resolved _ => Exit 0
       | Rejected _ => Exit 1
       | Pending => NoExit
       end)
    /\ contains (pretty (bytes payload) +:+ " bytes")
         (uploaded_line payload (parseArgs h argv !! "bucket") destination)
    /\ contains ("gs://" +:+ js_String (parseArgs h argv !! "bucket") +:+ "/"
                 +:+ js_String destination)
         (uploaded_line payload (parseArgs h argv !! "bucket") destination).
Proof.
  intros Hhelp Hbucket Hdry Hinput Hpayload Hdest.
  exists {| resumable := false;
            contentType := "application/json";
            metadata_cacheControl :=
              if truthy (parseArgs h argv !! "cacheControl")
              then Some (parseArgs h argv !! "cacheControl") else None |}.
  split; [done|]. split; [done|]. split; [done|]. split; [|split].
  - rewrite run_unfold. cbv zeta. rewrite Hhelp, Hbucket. cbn [negb].
    rewrite Hinput, Hpayload, Hdest, Hdry.
    destruct (storage_save w _ _ _ _) as [[]|e|]; reflexivity.
  - unfold uploaded_line.
    exists "Uploaded ",
      (" to gs://" +:+ js_String (parseArgs h argv !! "bucket") +:+ "/"
       +:+ js_String destination).
    rewrite ?app_assoc_string. reflexivity.
  - unfold uploaded_line.
    exists ("Uploaded " +:+ pretty (bytes payload) +:+ " bytes to "), "".
    rewrite app_empty_r, ?app_assoc_string. reflexivity.
Qed.

Lemma run_upload_outcome_witness :
  (exists saveOptions,
     resumable saveOptions = false
     /\ run ascii_host failing_storage_world
          ["--bucket"; "b"; "--data"; "null"; "--project"; "p"]
        = ([] ++ [new_Storage (Some (VStr "p")) None;
                  save_call (Some (VStr "b"))
                    (Some (VStr "document-2024-01-02T03-04-05-678Z.json")) "null"
                    saveOptions]
              ++ [console_error "403 Forbidden"],
           Exit 1))
  /\ run ascii_host sample_world ["--bucket"; "b"; "--data"; "null"]
     = ([new_Storage None None;
         save_call (Some (VStr "b")) (Some (VStr "document-2024-01-02T03-04-05-678Z.json"))
           "null" (mkSaveOptions false "application/json" None);
         console_log "Uploaded 4 bytes to gs://b/document-2024-01-02T03-04-05-678Z.json"],
        Exit 0).
Proof.
  split.
  - destruct (run_upload_outcome ascii_host failing_storage_world
                ["--bucket"; "b"; "--data"; "null"; "--project"; "p"]
                "null" {| jsonString := "null"; bytes := 4 |}
                (Some (VStr "document-2024-01-02T03-04-05-678Z.json")))
      as (saveOptions & Hres & _ & _ & Hrun & _); try by vm_compute.
    exists saveOptions. split; [done|]. exact Hrun.
  - by vm_compute.
Defined.

(** X20.  The storage client is constructed only after the input has
    been resolved, found to be JSON and given a destination, and it
    receives the [project] and [credentials] options as they were
    parsed (absent ones as [undefined]). *)
Theorem run_constructs_client_after_validation (h : Host) (w : World) (argv : list string)
    (projectId keyFilename : option value) :
  new_Storage projectId keyFilename ∈ (run h w argv).1 ->
  projectId = parseArgs h argv !! "project"
  /\ keyFilename = parseArgs h argv !! "credentials"
  /\ truthy (parseArgs h argv !! "help") = false
  /\ truthy (parseArgs h argv !! "bucket") = true
  /\ exists rawJson payload destination,
       (getInput w (parseArgs h argv)).2 = Resolved rawJson
       /\ preparePayload h rawJson (parseArgs h argv) = Return payload
       /\ inferDestination w (parseArgs h argv) = Return destination.
Proof.
  run_paths h w argv; intros Hel; in_trace Hel;
    injection Hel as -> ->; repeat (split; [done|]); by eexists _, _, _.
Qed.

Lemma run_constructs_client_after_validation_witness :
  Some (VStr "p")
  = parseArgs ascii_host ["-b"; "b"; "--data"; "null"; "-p"; "p"; "--dry-run"] !! "project"
  /\ None
     = parseArgs ascii_host ["-b"; "b"; "--data"; "null"; "-p"; "p"; "--dry-run"]
       !! "credentials"
  /\ truthy (parseArgs ascii_host ["-b"; "b"; "--data"; "null"; "-p"; "p"; "--dry-run"]
             !! "help") = false
  /\ truthy (parseArgs ascii_host ["-b"; "b"; "--data"; "null"; "-p"; "p"; "--dry-run"]
             !! "bucket") = true
  /\ exists rawJson payload destination,
       (getInput sample_world
          (parseArgs ascii_host ["-b"; "b"; "--data"; "null"; "-p"; "p"; "--dry-run"])).2
       = Resolved rawJson
       /\ preparePayload ascii_host rawJson
            (parseArgs ascii_host ["-b"; "b"; "--data"; "null"; "-p"; "p"; "--dry-run"])
          = Return payload
       /\ inferDestination sample_world
            (parseArgs ascii_host ["-b"; "b"; "--data"; "null"; "-p"; "p"; "--dry-run"])
          = Return destination.
Proof.
  apply (run_constructs_client_after_validation ascii_host sample_world
           ["-b"; "b"; "--data"; "null"; "-p"; "p"; "--dry-run"]).
  vm_compute. apply list_elem_of_here.
Defined.




Lemma helpText_not_dry_run_line p b d : helpText <> dry_run_line p b d.
Proof. intros Heq. by apply (f_equal (String.get 0)) in Heq. Qed.

Lemma helpText_not_uploaded_line p b d : helpText <> uploaded_line p b d.
Proof. intros Heq. by apply (f_equal (String.get 0)) in Heq. Qed.

(** X22.  The usage text is printed exactly when help is requested or
    the bucket is missing: a run that goes on to resolve its input never
    prints it, whatever the input or the upload does. *)
Theorem run_prints_usage_iff (h : Host) (w : World) (argv : list string) :
  console_log helpText ∈ (run h w argv).1
  <-> truthy (parseArgs h argv !! "help") = true
      \/ truthy (parseArgs h argv !! "bucket") = false.
Proof.
  run_paths h w argv; (split; [intros Hel | intros [Hcase|Hcase]]);
    try discriminate Hcase; auto;
    try (by left); try (by apply list_elem_of_here);
    in_trace Hel; injection Hel as Heq;
    by first [ apply helpText_not_dry_run_line in Heq
             | apply helpText_not_uploaded_line in Heq ].
Qed.

(** X23.  A failure before the upload ends the run at once and is
    reported as it is.  When input resolution rejects, when the text is
    not JSON, or when no destination can be inferred, the run prints the
    message of that very error on the error stream and ends with status
    1, after the reads of the input and nothing else: no storage client
    is constructed and nothing is uploaded. *)
Theorem run_fails_before_upload (h : Host) (w : World) (argv : list string) :
  truthy (parseArgs h argv !! "help") = false ->
  truthy (parseArgs h argv !! "bucket") = true ->
  (forall e,
     (getInput w (parseArgs h argv)).2 = Rejected e ->
     run h w argv = ((getInput w (parseArgs h argv)).1 ++ [console_error (message e)], Exit 1))
  /\ (forall rawJson e,
        (getInput w (parseArgs h argv)).2 = Resolved rawJson ->
        JSON_parse h rawJson = Throw e ->
        run h w argv
        = ((getInput w (parseArgs h argv)).1
           ++ [console_error ("Input is not valid JSON: " +:+ message e)],
           Exit 1))
  /\ (forall rawJson payload e,
        (getInput w (parseArgs h argv)).2 = Resolved rawJson ->
        preparePayload h rawJson (parseArgs h argv) = Return payload ->
        inferDestination w (parseArgs h argv) = Throw e ->
        run h w argv
        = ((getInput w (parseArgs h argv)).1 ++ [console_error (message e)], Exit 1)).
Proof.
  intros Hhelp Hbucket. split; [|split].
  - intros e Hinput.
    rewrite run_unfold. cbv zeta. rewrite Hhelp, Hbucket. cbn [negb]. by rewrite Hinput.
  - intros rawJson e Hinput Hparse.
    rewrite run_unfold. cbv zeta. rewrite Hhelp, Hbucket. cbn [negb]. rewrite Hinput.
    unfold preparePayload. by rewrite Hparse.
  - intros rawJson payload e Hinput Hpayload Hdest.
    rewrite run_unfold. cbv zeta. rewrite Hhelp, Hbucket. cbn [negb].
    by rewrite Hinput, Hpayload, Hdest.
Qed.

Lemma run_fails_before_upload_witness :
  run ascii_host sample_world ["--bucket"; "b"; "--input"; "missing.json"]
  = ([readFile_call (Some (VStr "missing.json"))]
     ++ [console_error "ENOENT: no such file or directory"], Exit 1)
  /\ run ascii_host sample_world ["--bucket"; "b"; "--data"; "{oops"]
     = ([] ++ [console_error ("Input is not valid JSON: " +:+ "Unexpected token")], Exit 1).
Proof.
  split.
  - refine (proj1 (run_fails_before_upload ascii_host sample_world
                     ["--bucket"; "b"; "--input"; "missing.json"] _ _)
              (mkError "ENOENT: no such file or directory") _); by vm_compute.
  - refine (proj1 (proj2 (run_fails_before_upload ascii_host sample_world
                            ["--bucket"; "b"; "--data"; "{oops"] _ _))
              "{oops" (mkError "Unexpected token") _ _); by vm_compute.
Defined.

(** X24.  The bucket check tests presence only.  A bare [--bucket] flag,
    whose value is [true], passes it: the run does not print the usage
    text, and an upload it performs goes to the bucket [true], the text
    of which is [true]. *)
Theorem run_bare_bucket_flag (h : Host) (w : World) (argv : list string) :
  parseArgs h argv !! "bucket" = Some VTrue ->
  truthy (parseArgs h argv !! "help") = false ->
  (console_log helpText ∉ (run h w argv).1)
  /\ forall bucket destination data options,
       save_call bucket destination data options ∈ (run h w argv).1 ->
       bucket = Some VTrue /\ js_String bucket = "true".
Proof.
  intros Hbare Hhelp'. split.
  - run_paths h w argv; try discriminate Hhelp'; intros Hel;
      try (rewrite Hbare in Hbucket; discriminate Hbucket);
      in_trace Hel; injection Hel as Heq;
      by first [ apply helpText_not_dry_run_line in Heq
               | apply helpText_not_uploaded_line in Heq ].
  - intros bucket destination data options.
    run_paths h w argv; intros Hel; in_trace Hel;
      injection Hel as -> _ _ _; by rewrite Hbare.
Qed.

Lemma run_bare_bucket_flag_witness :
  (console_log helpText
   ∉ (run ascii_host sample_world ["--bucket"; "--data"; "null"; "--dry-run"]).1)
  /\ run ascii_host sample_world ["--bucket"; "--data"; "null"; "--dry-run"]
     = ([new_Storage None None;
         console_log ("[dry-run] Valid JSON (4 bytes). Would upload to "
                      +:+ "gs://true/document-2024-01-02T03-04-05-678Z.json")],
        Exit 0).
Proof.
  split; [|by vm_compute].
  refine (proj1 (run_bare_bucket_flag ascii_host sample_world
                   ["--bucket"; "--data"; "null"; "--dry-run"] _ _)); by vm_compute.
Defined.

(** X25.  How standard input is cut into chunks makes no difference: two
    streams that deliver the same text before their end give
    [readFromStdin] the same result, and so give input resolution the
    same result under the same options. *)
Theorem readFromStdin_chunking (w w' : World) (chunks chunks' : list string)
    (later later' : list stdin_event) (options : gmap string value) :
  stdin_events w = (on_data <$> chunks) ++ on_end :: later ->
  stdin_events w' = (on_data <$> chunks') ++ on_end :: later' ->
  stream_text chunks = stream_text chunks' ->
  readFromStdin w = readFromStdin w'
  /\ (fs_readFile w = fs_readFile w' -> stdin_isTTY w = stdin_isTTY w' ->
      getInput w options = getInput w' options).
Proof.
  intros Hev Hev' Htext.
  assert (readFromStdin w = readFromStdin w') as Hsame.
  { rewrite (proj1 (readFromStdin_spec w chunks) later Hev).
    rewrite (proj1 (readFromStdin_spec w' chunks') later' Hev'). by rewrite Htext. }
  split; [done|]. intros Hfs Htty. unfold getInput. by rewrite Hsame, Hfs, Htty.
Qed.

Lemma readFromStdin_chunking_witness :
  readFromStdin sample_world = readFromStdin rechunked_world.
Proof.
  refine (proj1 (readFromStdin_chunking sample_world rechunked_world
                   ["nu"; "ll"] ["n"; ""; "ull"] [] [on_data "more"] ∅ _ _ _));
    by vm_compute.
Defined.
